(** * Raking of admin-2 predictions to admin-1 forecasts

    A shallow embedding of [raking_child.py] and [raking_launcher.py]
    (package [malaria_dengv.raking]) and the properties of the raking
    engine that the design document states about them.

    Conventions of the embedding.

    - The arithmetic of a cell is an interface, [Arith]: the type of
      cells with the [numpy] operations the source uses (addition,
      product, quotient, the comparison [== 0], the NaN-skipping sum of
      [groupby().sum()]).  It has two instances: [float64], the binary64
      numbers of the kernel with their IEEE 754 operations, which is
      what the code computes with, and [exact], rationals with a NaN, in
      which sums and products have no rounding.  A property is stated
      for every arithmetic unless it says that it is about one of the
      two; where it needs the product with 1 to be exact or NaN to
      behave as in IEEE 754, it assumes [ArithLaws], which both
      instances are proved to have.  Nothing is assumed about the order
      in which the NaN-skipping sum adds.
    - An [xarray] dataset is kept in row form along [location_id]: one
      record per label, in coordinate order.  The remaining dimensions
      (age group, sex, year, scenario and the single draw of the run) are
      one index type [D], the "dimension combination"; a row carries its
      cells as a function [D -> float].  Label based selection needs the
      labels of an axis to be distinct, which is stated as [NoDup] where a
      result depends on it.
    - Python sets are [gset Z]; the order in which [list(set)] enumerates
      is [elements], about which nothing is assumed.
    - File system access goes through a small trace-and-exception monad
      [io]; the trace records every call that touches the outside world,
      and the world says which paths exist and which calls the operating
      system refuses. *)

From Stdlib Require Import QArith Qcanon Floats.
From stdpp Require Import base numbers list sorting gmap strings pretty.

Open Scope Z_scope.

(** ** Cells *)

(** What the source does with a cell. *)
Class Arith : Type := {
  float : Type;
  NaN : float;
  zero : float;
  one : float;
  (** [a + b], [a * b], [a / b] *)
  fadd : float → float → float;
  fmul : float → float → float;
  fdiv : float → float → float;
  (** [a == 0], element-wise *)
  is_zero : float → bool;
  (** [.sum(skipna=True)], the default of a float reduction *)
  nansum : list float → float;
}.

(** [xr.where(c, x, y)] on one cell. *)
Definition where_ `{Arith} (c : bool) (x y : float) : float := if c then x else y.

(** The laws of an arithmetic with IEEE 754 NaN: the product with 1 is
    exact, an operation on NaN gives NaN, a comparison with NaN is
    False, and 1 is not 0. *)
Class ArithLaws `{Arith} : Prop := {
  fmul_one_r (a : float) : fmul a one = a;
  fmul_NaN_l (a : float) : fmul NaN a = NaN;
  fmul_NaN_r (a : float) : fmul a NaN = NaN;
  fdiv_NaN_l (a : float) : fdiv NaN a = NaN;
  fdiv_NaN_r (a : float) : fdiv a NaN = NaN;
  is_zero_NaN : is_zero NaN = false;
  is_zero_one : is_zero one = false;
}.

(** *** Exact arithmetic *)

Module Exact.

Inductive cell : Type :=
| NaN
| Num (q : Qc).

Global Instance cell_eq_dec : EqDecision cell.
Proof. solve_decision. Defined.

(** [a + b]: NaN is absorbing. *)
Definition fadd (a b : cell) : cell :=
  match a, b with
  | Num x, Num y => Num (x + y)%Qc
  | _, _ => NaN
  end.

(** [a * b]. *)
Definition fmul (a b : cell) : cell :=
  match a, b with
  | Num x, Num y => Num (x * y)%Qc
  | _, _ => NaN
  end.

(** [a == 0], element-wise; a comparison with NaN is False. *)
Definition is_zero (a : cell) : bool :=
  match a with
  | Num x => bool_decide (x = 0%Qc)
  | NaN => false
  end.

(** [a / b].  The source never divides by zero (the denominator goes
    through [xr.where(d == 0, 1, d)] first); the quotient by zero, an
    infinity in numpy, has no counterpart here and is given as NaN. *)
Definition fdiv (a b : cell) : cell :=
  match a, b with
  | Num x, Num y => if bool_decide (y = 0%Qc) then NaN else Num (x / y)%Qc
  | _, _ => NaN
  end.

(** NaN cells count as 0 and an empty or all-NaN group sums to 0. *)
Definition nansum (l : list cell) : cell :=
  Num (foldr (λ a acc, match a with Num x => (x + acc)%Qc | NaN => acc end) 0%Qc l).

End Exact.

Definition exact : Arith := {|
  float := Exact.cell;
  NaN := Exact.NaN;
  zero := Exact.Num 0%Qc;
  one := Exact.Num 1%Qc;
  fadd := Exact.fadd;
  fmul := Exact.fmul;
  fdiv := Exact.fdiv;
  is_zero := Exact.is_zero;
  nansum := Exact.nansum;
|}.

Abbreviation Num := Exact.Num.

Definition of_Z (z : Z) : @float exact := Num (Qc_of_Z z).

(** *** Binary64 *)

(** The [float64] of numpy: the primitive floats of the kernel with
    their IEEE 754 operations.  The NaN-skipping sum adds the cells that
    are not NaN to 0 from left to right; numpy may group a long sum
    otherwise, which a sum of one or two cells cannot show, and no
    property below depends on. *)
Definition float64 : Arith := {|
  float := PrimFloat.float;
  NaN := PrimFloat.nan;
  zero := 0%float;
  one := 1%float;
  fadd := PrimFloat.add;
  fmul := PrimFloat.mul;
  fdiv := PrimFloat.div;
  is_zero := λ a, PrimFloat.eqb a 0%float;
  nansum := foldl (λ acc a, if PrimFloat.eqb a a then PrimFloat.add acc a else acc) 0%float;
|}.

(** ** Exceptions and calls *)

Inductive event : Type :=
| EvExists (path : string)        (* Path.exists() *)
| EvOpen (path : string)          (* xr.open_dataset *)
| EvMkdir (path : string)         (* Path.mkdir(parents=True, exist_ok=True) *)
| EvChmod (path : string)         (* chmod 0o775 *)
| EvToNetcdf (path : string)      (* Dataset.to_netcdf *)
| EvPrint (msg : string).         (* print *)

Inductive exn : Type :=
| ValueError (msg : string)
| KeyError
| FileNotFoundError (path : string)
| UnboundLocalError (name : string)
| CallFailed (call : event).       (* what a failed mkdir, chmod or to_netcdf raises *)

Global Instance event_eq_dec : EqDecision event.
Proof. solve_decision. Defined.

Global Instance exn_eq_dec : EqDecision exn.
Proof. solve_decision. Defined.

(** ** Datasets in row form *)

Section Datasets.
Context `{Arith} {D : Type}.

(** One label of the [location_id] axis of a dataset whose data variable
    is [value]: the admin-1 forecast, and the admin-2 prediction before
    the hierarchy is attached. *)
Record row : Type := Row {
  location_id : Z;
  value : D → float;
}.

(** One label of the admin-2 dataset after [attach_hierarchy]: the row
    and the [parent_id] variable merged in from the hierarchy. *)
Record child : Type := Child {
  child_row :> row;
  parent_id : Z;
}.

(** One record of the hierarchy file. *)
Record hrow : Type := HRow {
  h_location_id : Z;
  h_level : Z;
  h_parent_id : Z;
}.

(** [ds.location_id.values] *)
Definition ids (ds : list row) : list Z := location_id <$> ds.

(** [ds.sel(<key>=k)] / [.loc[dict(<key>=k)]] for one label: the entry
    carrying it, [None] standing for the [KeyError] of a missing label.
    On an axis that repeats the label pandas refuses the lookup or
    returns every match, where this returns the first: what is proved
    through [loc] about rows and cells assumes an axis without repeated
    labels, and says so. *)
Fixpoint loc {A : Type} (key : A → Z) (k : Z) (ds : list A) : option A :=
  match ds with
  | [] => None
  | r :: ds' => if decide (key r = k) then Some r else loc key k ds'
  end.

(** [ds.sel(<key>=labels)] for a list of labels, in the order of the
    list.  All callers pass labels taken from the dataset itself, so the
    [KeyError] of a missing label does not arise. *)
Definition sel {A : Type} (key : A → Z) (labels : list Z) (ds : list A) : list A :=
  omap (λ k, loc key k ds) labels.

(** [sorted(s)] for a set of ids. *)
Definition sorted (s : gset Z) : list Z := merge_sort Z.le (elements s).

(** *** Key reconciliation: [impute_location_ids] *)

Definition IMPUTE_MAP : list (Z * Z) :=
  [ (60908, 44858);
    (95069, 44858);
    (94364, 44858) ].

(** [ds[value_var].loc[dict(location_id=new_id)] += rhs] *)
Definition add_into (new_id : Z) (rhs : D → float) (ds : list row) : list row :=
  (λ r, if decide (location_id r = new_id)
        then Row (location_id r) (λ d, fadd (value r d) (rhs d))
        else r) <$> ds.

(** [ds.assign_coords(location_id=xr.where(ds.location_id == old_id,
    new_id, ds.location_id))] *)
Definition relabel (old_id new_id : Z) (ds : list row) : list row :=
  (λ r, if decide (location_id r = old_id) then Row new_id (value r) else r) <$> ds.

(** [ds.drop_sel(location_id=old_id)] *)
Definition drop_sel (old_id : Z) (ds : list row) : list row :=
  filter (λ r, location_id r ≠ old_id) ds.

(** The body of the loop over [IMPUTE_MAP.items()]. *)
Definition impute_step (ds_copy : list row) (item : Z * Z) : list row :=
  let '(old_id, new_id) := item in
  let ds_copy :=
    if bool_decide (old_id ∈ ids ds_copy) then
      if bool_decide (new_id ∈ ids ds_copy) then
        match loc location_id old_id ds_copy with
        | Some r_old => add_into new_id (value r_old) ds_copy
        | None => ds_copy
        end
      else relabel old_id new_id ds_copy
    else ds_copy in
  if bool_decide (old_id ∈ ids ds_copy) then drop_sel old_id ds_copy else ds_copy.

(** The loop, for any item list; [impute_location_ids] runs it on
    [IMPUTE_MAP] in the insertion order of the dict. *)
Definition impute_with (items : list (Z * Z)) (ds : list row) : list row :=
  foldl impute_step ds items.

(** [ds.copy()] is shallow: the addition of [add_into] also writes into
    the array of the argument, which [main_raking_function] does not
    use again.  The embedding gives the table that is returned. *)
Definition impute_location_ids (ds : list row) : list row :=
  impute_with IMPUTE_MAP ds.

(** *** Hierarchy index and id alignment *)

(** [ds.where(ds["level"] == 5, drop=True)] of [load_in_hierarchy_dataset] *)
Definition admin2_level (hierarchy : list hrow) : list hrow :=
  filter (λ h, h_level h = 5) hierarchy.

Definition subset_ds_to_admin2_locations (hierarchy_ds : list hrow) (ds : list row)
  : list row :=
  let admin2_ids : gset Z := list_to_set (h_location_id <$> hierarchy_ds) in
  let ds_ids : gset Z := list_to_set (ids ds) in
  let common_ids := sorted (admin2_ids ∩ ds_ids) in
  sel location_id common_ids ds.

Definition attach_hierarchy (ds : list row) (hierarchy_ds : list hrow) : list child :=
  let common_ids :=
    sorted (list_to_set (ids ds) ∩ list_to_set (h_location_id <$> hierarchy_ds)) in
  let ds_admin2 := sel location_id common_ids ds in
  let hierarchy_sub := sel h_location_id common_ids hierarchy_ds in
  (* xr.merge: the two selections carry the same labels in the same order *)
  zip_with (λ r h, Child r (h_parent_id h)) ds_admin2 hierarchy_sub.

(** *** Partitioning *)

(** [set(ds_admin2["parent_id"].values) & set(ds_admin1["location_id"].values)] *)
Definition common_parents (ds_admin2 : list child) (ds_admin1 : list row) : gset Z :=
  list_to_set (parent_id <$> ds_admin2) ∩ list_to_set (ids ds_admin1).

Definition split_ds_admin1 (ds_admin2 : list child) (ds_admin1 : list row)
  : list row * list row :=
  let common_ids := elements (common_parents ds_admin2 ds_admin1) in
  let ds_admin1_with_parent_id := sel location_id common_ids ds_admin1 in
  let remaining_ids :=
    elements ((list_to_set (ids ds_admin1) : gset Z) ∖ list_to_set common_ids) in
  let ds_admin1_without_parent_id := sel location_id remaining_ids ds_admin1 in
  (ds_admin1_with_parent_id, ds_admin1_without_parent_id).

Definition split_ds_admin2 (ds_admin2 : list child) (ds_admin1 : list row)
  : list child * list child :=
  let common_ids := elements (common_parents ds_admin2 ds_admin1) in
  (* mask = ds_admin2["parent_id"].isin(common_ids) *)
  let mask (c : child) : Prop := parent_id c ∈ common_ids in
  let ds_admin2_with_parent := filter mask ds_admin2 in
  let ds_admin2_without_parent := filter (λ c, ¬ mask c) ds_admin2 in
  (ds_admin2_with_parent, ds_admin2_without_parent).

(** *** Factor computation *)

(** [ds_admin2[value_var].groupby("parent_id").sum(dim="location_id")],
    renamed to [location_id]: one row per distinct parent, in sorted
    order, holding the NaN-skipping sum of its group cell by cell.  On a
    table without rows [groupby] raises a [ValueError]. *)
Definition group_sum (ds_admin2 : list child) (p : Z) : D → float :=
  λ d, nansum ((λ c : child, value c d) <$> filter (λ c, parent_id c = p) ds_admin2).

Definition groupby_parent_sum (ds_admin2 : list child) : exn + list row :=
  match ds_admin2 with
  | [] =>
      (* groupby on an axis without labels *)
      inl (ValueError "parent_id must not be empty")
  | _ =>
      inr ((λ p, Row p (group_sum ds_admin2 p))
             <$> merge_sort Z.le (remove_dups (parent_id <$> ds_admin2)))
  end.

(** [da.reindex(location_id=labels)]: a label the array lacks is filled
    with NaN. *)
Definition reindex (labels : list Z) (da : list row) : list row :=
  (λ k, default (Row k (λ _, NaN)) (loc location_id k da)) <$> labels.

Definition sum_and_align_admin2_totals (ds_admin2 : list child) (ds_admin1 : list row)
  : exn + list row :=
  match groupby_parent_sum ds_admin2 with
  | inl e => inl e
  | inr admin2_sums =>
      let admin1_ids := ids ds_admin1 in
      let admin2_sums_aligned := reindex admin1_ids admin2_sums in
      (* both operands carry the labels admin1_ids, in that order *)
      inr (zip_with
             (λ a c, Row (location_id c) (λ d,
                where_ (is_zero (value a d) || is_zero (value c d))
                       one
                       (fdiv (value c d) (where_ (is_zero (value a d)) one (value a d)))))
             admin2_sums_aligned ds_admin1)
  end.

(** *** Factor broadcast and apply *)

(** [factor_da.sel(parent_id=ds_admin2["parent_id"])] looks the factor
    of each child's parent up ([None]: a parent without factor, the
    [KeyError] of [sel]); the product is taken cell by cell. *)
Definition broadcast_factor_to_admin2 (ds_admin2 : list child) (factor : list row)
  : option (list row) :=
  mapM (λ c : child,
          f ← loc location_id (parent_id c) factor;
          Some (Row (location_id c) (λ d, fmul (value c d) (value f d))))
       ds_admin2.

(** [ds_admin2_raked[value_var] = raked_values]: the assignment aligns
    [raked_values] to the labels of the dataset, filling with NaN. *)
Definition build_raked_dataset (ds_admin2 : list child) (raked_values : list row)
  : list child :=
  (λ c : child,
     Child (Row (location_id c)
                (default (λ _, NaN) (value <$> loc location_id (location_id c) raked_values)))
           (parent_id c)) <$> ds_admin2.

(** *** Reconciliation merge *)

(** [xr.concat([raked_ds, ds_admin2_without_parent], dim="location_id")] *)
Definition merge_raked_and_unraked_admin2_dask
    (raked_ds ds_admin2_without_parent : list child) : list child :=
  raked_ds ++ ds_admin2_without_parent.

(** Only [value] is kept; [parent_id] goes. *)
Definition drop_data_variables (merged_ds : list child) : list row :=
  child_row <$> merged_ds.

(** Steps 5 to 8 of [main_raking_function]: the raked with-parent
    partition [ds_admin2_raked]. *)
Definition raked_partition (ds_admin2 : list child) (ds_admin1 : list row)
  : exn + list child :=
  let '(ds_admin2_with_parent, _) := split_ds_admin2 ds_admin2 ds_admin1 in
  let '(ds_admin1_with_parent, _) := split_ds_admin1 ds_admin2 ds_admin1 in
  match sum_and_align_admin2_totals ds_admin2_with_parent ds_admin1_with_parent with
  | inl e => inl e
  | inr factor =>
      match broadcast_factor_to_admin2 ds_admin2_with_parent factor with
      | None => inl KeyError
      | Some raked_values => inr (build_raked_dataset ds_admin2_with_parent raked_values)
      end
  end.

(** Steps 5 to 10, which touch no file: the merged table. *)
Definition rake (ds_admin2 : list child) (ds_admin1 : list row) : exn + list row :=
  let '(_, ds_admin2_without_parent) := split_ds_admin2 ds_admin2 ds_admin1 in
  match raked_partition ds_admin2 ds_admin1 with
  | inl e => inl e
  | inr ds_admin2_raked =>
      let merged_ds :=
        merge_raked_and_unraked_admin2_dask ds_admin2_raked ds_admin2_without_parent in
      inr (drop_data_variables merged_ds)
  end.

End Datasets.

Arguments row {_} D.
Arguments child {_} D.

(** ** The outside world: files, exceptions and the trace *)

(** An event that reads or writes the file system (everything but [print]). *)
Definition is_fs_event (e : event) : bool :=
  match e with
  | EvPrint _ => false
  | _ => true
  end.

(** [Path(a) / b] *)
Definition path_join (a b : string) : string := a +:+ "/" +:+ b.
Infix "//" := path_join (at level 40, left associativity).

(** Dict literals of the two scripts that are only ever read by key. *)

Definition CAUSE_MAP : gmap string string :=
  list_to_map [ ("malaria", "malaria.nc"); ("dengue", "ntd_dengue.nc") ].

Definition scenario_and_measure_map : gmap (Z * string) string :=
  list_to_map
    [ ((0, "death"), "20250709_first_sub_rcp45_climate_ref_100d_hiv_shocks_covid_all_s8_num");
      ((0, "incidence"), "20250719_rcp45_first_sub_climate_ref_scen0_agg_num");
      ((0, "yll"), "20250709_rcp45_first_sub_climate_ref_agg_num_restored_draws");
      ((0, "yld"), "20250719_rcp45_first_sub_climate_ref_scen0_agg_num");
      ((75, "death"), "20250709_first_sub_rcp26_first_sub_climate_vector_borne_diseases_100d_hiv_shocks_covid_all_s8_num");
      ((75, "incidence"), "20250719_rcp26_first_sub_climate_vector_borne_diseases_scen75_agg_num");
      ((75, "yll"), "20250709_rcp26_first_sub_climate_vector_borne_diseases_agg_num_restored_draws");
      ((75, "yld"), "20250719_rcp26_first_sub_climate_vector_borne_diseases_scen75_agg_num");
      ((76, "death"), "20250709_first_sub_rcp85_first_sub_climate_vector_borne_diseases_100d_hiv_shocks_covid_all_s8_num");
      ((76, "incidence"), "20250719_rcp85_first_sub_climate_vector_borne_diseases_scen76_agg_num");
      ((76, "yll"), "20250709_rcp85_first_sub_climate_vector_borne_diseases_agg_num_restored_draws");
      ((76, "yld"), "20250719_rcp85_first_sub_climate_vector_borne_diseases_scen76_agg_num") ].

(** The same literal in [get_predicted_ds], [save_raked_dataset_optimized]
    and [check_if_path_draw_exists]. *)
Definition SCENARIO_MAP : gmap Z string :=
  list_to_map [ (0, "ssp245"); (75, "ssp126"); (76, "ssp585") ].

(** [MEASURE_MAP] of [get_predicted_ds]. *)
Definition MEASURE_MAP : gmap string string :=
  list_to_map
    [ ("death", "mortality"); ("yll", "mortality");
      ("incidence", "incidence"); ("yld", "incidence") ].

(** [MEASURE_MAP] of [save_raked_dataset_optimized]. *)
Definition MEASURE_MAP_save : gmap string string :=
  list_to_map
    [ ("death", "mortality"); ("incidence", "incidence");
      ("yll", "yll"); ("yld", "yld") ].

Definition forecast_root : string := "/mnt/share/forecasting/data/9/future".
Definition deliverable_root : string :=
  "/mnt/team/rapidresponse/pub/malaria-denv/deliverables/2025_08_26_admin_2_counts".

(** The directory name under [output/], built the same way by
    [save_raked_dataset_optimized] and by [check_if_path_draw_exists]. *)
Definition raked_dirname (cause measure_name scenario_name : string) : string :=
  if decide (cause = "malaria") then
    "as_cause_" +:+ cause +:+ "_measure_" +:+ measure_name +:+ "_metric_count_"
      +:+ "ssp_scenario_" +:+ scenario_name +:+ "_dah_scenario_Baseline_raked"
  else
    "as_cause_" +:+ cause +:+ "_measure_" +:+ measure_name +:+ "_metric_count_"
      +:+ "ssp_scenario_" +:+ scenario_name +:+ "_raked".

Section Pipeline.
Context `{Arith} {D : Type}.

(** A dataset with a [draw] axis, as the forecast file has it: the
    slices along that axis, each with its label, in coordinate order. *)
Definition by_draw : Type := list (Z * list (row D)).

(** What the file system holds: which paths exist, which of the calls
    that change it fail, and the content of the three kinds of NetCDF
    file the run opens. *)
Record world : Type := World {
  fs_exists : string → bool;
  fs_refuses : event → bool;
  forecast_nc : string → by_draw;
  predicted_nc : string → list (row D);
  hierarchy_nc : string → list hrow;
}.

(** A computation reads the world and yields the trace of its calls and
    either an exception or a value. *)
Definition io (A : Type) : Type := world → list event * (exn + A).

Definition io_ret {A} (a : A) : io A := λ _, ([], inr a).

Definition io_bind {A B} (k : A → io B) (m : io A) : io B :=
  λ w, match m w with
       | (t, inl e) => (t, inl e)
       | (t, inr a) => let '(t', r) := k a w in (t ++ t', r)
       end.

Global Instance io_mret : MRet io := @io_ret.
Global Instance io_mbind : MBind io := @io_bind.

Definition raise {A} (e : exn) : io A := λ _, ([], inl e).

Definition path_exists (p : string) : io bool :=
  λ w, ([EvExists p], inr (fs_exists w p)).

Definition open_dataset {A} (content : world → string → A) (p : string) : io A :=
  λ w, ([EvOpen p],
        if fs_exists w p then inr (content w p) else inl (FileNotFoundError p)).

Definition emit (e : event) : io unit := λ _, ([e], inr tt).

(** A call that changes the file system ([mkdir], [chmod], [to_netcdf]):
    where the operating system refuses it, or the library fails in it,
    it raises; the exception, an [OSError] of some kind for [mkdir] and
    [chmod], is recorded as [CallFailed] with the call. *)
Definition sys_call (e : event) : io unit :=
  λ w, ([e], if fs_refuses w e then inl (CallFailed e) else inr tt).

(** [d[k]] on a dict. *)
Definition dict_get `{Countable K} {V} (d : gmap K V) (k : K) : io V :=
  match d !! k with
  | Some v => mret v
  | None => raise KeyError
  end.

Definition of_option {A} (e : exn) (o : option A) : io A :=
  match o with
  | Some a => mret a
  | None => raise e
  end.

(** A computation that touches no file. *)
Definition of_result {A} (r : exn + A) : io A := λ _, ([], r).

(** *** Loading *)

(** [ds.where(ds["draw"] == draw, drop=True)]; the renaming of the data
    variable [draws] to [value] that follows leaves the cells alone. *)
Definition where_draw (draw : Z) (ds : by_draw) : by_draw :=
  filter (λ s, s.1 = draw) ds.

Definition get_forcasted_ds (cause : string) (scenario : Z) (measure : string) (draw : Z)
  : io by_draw :=
  let main_dir := forecast_root // measure in
  if bool_decide (scenario_and_measure_map !! (scenario, measure) = None) then
    raise (ValueError "Invalid scenario ID and measure combination.")
  else
    dataset_name ← dict_get scenario_and_measure_map (scenario, measure);
    cause_file ← dict_get CAUSE_MAP cause;
    let file_path := main_dir // dataset_name // cause_file in
    present ← path_exists file_path;
    if negb present then raise (FileNotFoundError file_path)
    else
      ds ← open_dataset forecast_nc file_path;
      mret (where_draw draw ds).

Definition get_predicted_ds (cause : string) (scenario : Z) (measure : string) (draw : Z)
  : io (list (row D)) :=
  let main_dir := deliverable_root // "input" in
  scenario_second_name ← dict_get SCENARIO_MAP scenario;
  measure_second_name ← dict_get MEASURE_MAP measure;
  draw_folder ←
    (if decide (cause = "malaria") then
       mret (Some ("as_cause_" +:+ cause +:+ "_measure_" +:+ measure_second_name
                     +:+ "_metric_count_ssp_scenario_" +:+ scenario_second_name
                     +:+ "_dah_scenario_Baseline"))
     else if decide (cause = "dengue") then
       mret (Some ("as_cause_" +:+ cause +:+ "_measure_" +:+ measure_second_name
                     +:+ "_metric_count_ssp_scenario_" +:+ scenario_second_name))
     else
       emit (EvPrint ("Unknown cause: " +:+ cause +:+ ", only dengue or malaria available."));;
       mret None);
  (* the else branch leaves draw_folder unassigned *)
  draw_folder ← of_option (UnboundLocalError "draw_folder") draw_folder;
  let draw_folder_path := main_dir // draw_folder in
  present ← path_exists draw_folder_path;
  if negb present then raise (FileNotFoundError draw_folder_path)
  else
    let filename := "draw_" +:+ pretty draw +:+ ".nc" in
    open_dataset predicted_nc (draw_folder_path // filename).

Definition load_in_hierarchy_dataset : io (list hrow) :=
  ds ← open_dataset hierarchy_nc (deliverable_root // "full_hierarchy_2023_lsae_1209.nc");
  mret (admin2_level ds).

(** *** The axes other than [location_id] and [draw] *)

(** Both files are taken to carry the same labels on the remaining axes:
    that is what one index type [D] for the cells of both says.  On such
    tables the two steps of [main_raking_function] that only concern
    these axes return their argument. *)

(** [ds_admin2.transpose( *ds_admin1.dims)]: the order of the axes is no
    part of a table in row form. *)
Definition transpose (ds_admin2 : list (row D)) (ds_admin1 : by_draw) : list (row D) :=
  ds_admin2.

(** [subset_admin1_to_admin2_dims]: the forecast restricted to the age
    groups and sexes that the prediction has too, which are all of
    them. *)
Definition subset_admin1_to_admin2_dims (ds_admin1 : by_draw) (ds_admin2 : list (row D))
  : by_draw :=
  ds_admin1.

(** *** Saving *)

Definition save_raked_dataset_optimized
    (cause : string) (scenario : Z) (measure : string) (draw : Z)
    (merged_ds : list (row D)) : io unit :=
  scenario_name ← dict_get SCENARIO_MAP scenario;
  measure_name ← dict_get MEASURE_MAP_save measure;
  let out_dir := deliverable_root // "output" in
  sys_call (EvMkdir out_dir);;
  sys_call (EvChmod out_dir);;
  let out_dir := out_dir // raked_dirname cause measure_name scenario_name in
  sys_call (EvMkdir out_dir);;
  let outfile := out_dir // ("draw_" +:+ pretty draw +:+ ".nc") in
  (* the encoding is read off the chunks of the merged table, which
     [merge_raked_and_unraked_admin2_dask] has made sure it has; building
     it and [to_netcdf] are one call here *)
  sys_call (EvToNetcdf outfile);;
  sys_call (EvChmod outfile);;
  emit (EvPrint ("[✓] Saved: " +:+ outfile)).

(** *** The run *)

(** After [get_forcasted_ds] the forecast keeps the slices labelled
    [draw]; the prediction has the single label [draw] on that axis
    ([assign_coords(draw=[draw])]), and every later operation aligns
    the two by label.  With the label occurring once in the file, steps
    5 to 10 are the computation on that slice.  On a forecast that lacks
    the label or repeats it the run goes on under the join and index
    rules of xarray, which are not in the source: what steps 5 to 10
    make of such a forecast is the parameter [off_axis], about which
    nothing is assumed. *)
Context (off_axis : by_draw → list (child D) → exn + list (row D)).

Definition main_raking_function
    (cause : string) (scenario : Z) (measure : string) (draw : Z) : io (list (row D)) :=
  (* Step 1 *)
  ds_admin1 ← get_forcasted_ds cause scenario measure draw;
  ds_admin2 ← get_predicted_ds cause scenario measure draw;
  let ds_admin2 := impute_location_ids ds_admin2 in
  let ds_admin2 := transpose ds_admin2 ds_admin1 in
  hierarchy ← load_in_hierarchy_dataset;
  (* Step 2 *)
  let ds_admin1 := subset_admin1_to_admin2_dims ds_admin1 ds_admin2 in
  (* Steps 3 and 4 *)
  let ds_admin2 := subset_ds_to_admin2_locations hierarchy ds_admin2 in
  let ds_admin2 := attach_hierarchy ds_admin2 hierarchy in
  (* Steps 5 to 10 *)
  merged_ds ← of_result
    match ds_admin1 with
    | [(_, ds_admin1)] => rake ds_admin2 ds_admin1
    | _ => off_axis ds_admin1 ds_admin2
    end;
  (* Step 11 *)
  save_raked_dataset_optimized cause scenario measure draw merged_ds;;
  mret merged_ds.

(** The path [save_raked_dataset_optimized] writes for a combination. *)
Definition output_path (cause : string) (scenario : Z) (measure : string) (draw : Z)
  : option string :=
  scenario_name ← SCENARIO_MAP !! scenario;
  measure_name ← MEASURE_MAP_save !! measure;
  Some (deliverable_root // "output" // raked_dirname cause measure_name scenario_name
          // ("draw_" +:+ pretty draw +:+ ".nc")).

(** *** The launcher ([raking_launcher.py]) *)

Definition CAUSES : list string := ["malaria"; "dengue"].
Definition SCENARIOS : list Z := [0; 75; 76].
Definition MEASURES : list string := ["death"; "incidence"; "yll"; "yld"].
Definition DRAWS : list Z := seqZ 0 100.

Definition check_if_path_draw_exists
    (cause : string) (scenario : Z) (measure : string) (draw : Z) : io bool :=
  let out_dir := deliverable_root // "output" in
  scenario ← dict_get SCENARIO_MAP scenario;
  let measure := if decide (measure = "death") then "mortality" else measure in
  let dirname := raked_dirname cause measure scenario in
  let filename := "draw_" +:+ pretty draw +:+ ".nc" in
  let output_name := out_dir // dirname // filename in
  present ← path_exists output_name;
  if (present : bool) then mret true else mret false.

(** The task list handed to [workflow.add_tasks]: one task, identified
    by its node arguments, per iteration of the four nested loops. *)
Definition tasks : list (string * Z * string * Z) :=
  cause ← CAUSES;
  scenario ← SCENARIOS;
  measure ← MEASURES;
  draw ← DRAWS;
  [(cause, scenario, measure, draw)].

End Pipeline.

Arguments by_draw {_} D.
Arguments world {_} D.
Arguments io {_} D.

(** ** Views in which the properties are stated *)

Section Views.
Context `{Arith} {D : Type}.

(** The cells stored under a label, if the label is present. *)
Definition cell (ds : list (row D)) (id : Z) : option (D → float) :=
  value <$> loc location_id id ds.

(** Two optional rows of cells agree cell by cell. *)
Definition same_cells (o1 o2 : option (D → float)) : Prop :=
  match o1, o2 with
  | Some f, Some g => ∀ d, f d = g d
  | None, None => True
  | _, _ => False
  end.

(** Adding the cells of a retired label into those of its successor; a
    missing side contributes nothing. *)
Definition merge_cells (new old : option (D → float)) : option (D → float) :=
  match old, new with
  | None, _ => new
  | Some vo, None => Some vo
  | Some vo, Some vn => Some (λ d, fadd (vn d) (vo d))
  end.

(** One iteration of the reconciliation loop, seen on the label-to-cells
    view of the table. *)
Definition step_view (m : Z → option (D → float)) (item : Z * Z)
  : Z → option (D → float) :=
  λ id, if decide (id = item.1) then None
        else if decide (id = item.2) then merge_cells (m item.2) (m item.1)
        else m id.

(** Items of a rewrite map: distinct old ids, none of which is anyone's
    new id. *)
Definition rewrite_map (items : list (Z * Z)) : Prop :=
  NoDup items.*1 ∧ ∀ n, n ∈ items.*2 → n ∉ items.*1.

(** Sums that do not depend on the order of their terms, as they are
    where addition does not round. *)
Definition sums_order_free : Prop :=
  (∀ a b : float, fadd a b = fadd b a) ∧
  (∀ a b c : float, fadd (fadd a b) c = fadd (fadd a c) b).

(** The factor of one cell, as [sum_and_align_admin2_totals] writes it. *)
Definition factor_cell (aggregate coarse : float) : float :=
  where_ (is_zero aggregate || is_zero coarse)
         one
         (fdiv coarse (where_ (is_zero aggregate) one aggregate)).

(** The factor a child is multiplied by: the one stored under its
    parent's label. *)
Definition factor_at (factor : list (row D)) (p : Z) (d : D) : float :=
  value (default (Row p (λ _, NaN)) (loc location_id p factor)) d.

Definition apply_factor (factor : list (row D)) (c : child D) : row D :=
  Row (location_id c) (λ d, fmul (value c d) (factor_at factor (parent_id c) d)).

(** Two worlds that differ at most in the slices of the forecast files
    labelled otherwise than [draw]. *)
Definition same_but_other_draws (draw : Z) (w1 w2 : world D) : Prop :=
  fs_exists w1 = fs_exists w2 ∧
  fs_refuses w1 = fs_refuses w2 ∧
  predicted_nc w1 = predicted_nc w2 ∧
  hierarchy_nc w1 = hierarchy_nc w2 ∧
  ∀ p, where_draw draw (forecast_nc w1 p) = where_draw draw (forecast_nc w2 p).

(** What [groupby_parent_sum] returns on a fine table that has rows, and
    the factor table [sum_and_align_admin2_totals] makes of it. *)
Definition parent_sums (ds_admin2 : list (child D)) : list (row D) :=
  (λ p, Row p (group_sum ds_admin2 p))
    <$> merge_sort Z.le (remove_dups (parent_id <$> ds_admin2)).

Definition aligned_factor (ds_admin2 : list (child D)) (ds_admin1 : list (row D))
  : list (row D) :=
  zip_with
    (λ a c, Row (location_id c) (λ d, factor_cell (value a d) (value c d)))
    (reindex (ids ds_admin1) (parent_sums ds_admin2))
    ds_admin1.


(** A write that the operating system refuses nowhere. *)
Definition writable (w : world D) : Prop := ∀ e, fs_refuses w e = false.

End Views.

(** ** Paths and traces of a run *)

(** An event that changes the file system. *)
Definition is_write_event (e : event) : bool :=
  match e with
  | EvMkdir _ | EvChmod _ | EvToNetcdf _ => true
  | _ => false
  end.

(** [f"draw_{draw}.nc"] *)
Definition draw_filename (draw : Z) : string := "draw_" +:+ pretty draw +:+ ".nc".

(** [file_path] of [get_forcasted_ds]. *)
Definition forecast_path (cause : string) (scenario : Z) (measure : string) : option string :=
  dataset_name ← scenario_and_measure_map !! (scenario, measure);
  cause_file ← CAUSE_MAP !! cause;
  Some (forecast_root // measure // dataset_name // cause_file).

(** [draw_folder_path] of [get_predicted_ds]; [None] where a lookup
    fails or [draw_folder] stays unassigned. *)
Definition predicted_folder (cause : string) (scenario : Z) (measure : string)
  : option string :=
  scenario_second_name ← SCENARIO_MAP !! scenario;
  measure_second_name ← MEASURE_MAP !! measure;
  if decide (cause = "malaria") then
    Some (deliverable_root // "input" //
            ("as_cause_" +:+ cause +:+ "_measure_" +:+ measure_second_name
               +:+ "_metric_count_ssp_scenario_" +:+ scenario_second_name
               +:+ "_dah_scenario_Baseline"))
  else if decide (cause = "dengue") then
    Some (deliverable_root // "input" //
            ("as_cause_" +:+ cause +:+ "_measure_" +:+ measure_second_name
               +:+ "_metric_count_ssp_scenario_" +:+ scenario_second_name))
  else None.

(** The file [load_in_hierarchy_dataset] opens. *)
Definition hierarchy_path : string :=
  deliverable_root // "full_hierarchy_2023_lsae_1209.nc".

(** [out_dir / dirname] of [save_raked_dataset_optimized]. *)
Definition output_dir (cause : string) (scenario : Z) (measure : string) : option string :=
  scenario_name ← SCENARIO_MAP !! scenario;
  measure_name ← MEASURE_MAP_save !! measure;
  Some (deliverable_root // "output" // raked_dirname cause measure_name scenario_name).

(** The calls of a run up to the save, and those of the save. *)
Definition load_trace (pf pd : string) (draw : Z) : list event :=
  [ EvExists pf; EvOpen pf; EvExists pd; EvOpen (pd // draw_filename draw);
    EvOpen hierarchy_path ].

Definition save_trace (dir : string) (draw : Z) : list event :=
  [ EvMkdir (deliverable_root // "output"); EvChmod (deliverable_root // "output");
    EvMkdir dir; EvToNetcdf (dir // draw_filename draw);
    EvChmod (dir // draw_filename draw);
    EvPrint ("[✓] Saved: " +:+ (dir // draw_filename draw)) ].

(** ** Example data *)

(** A dataset without stratifying dimension: one cell per label. *)
Definition constant (z : Z) : unit → @float exact := λ _, of_Z z.

(** A prediction holding two retired labels and not their successor. *)
Definition ex_prediction : list (@row exact unit) :=
  [ Row 5 (constant 1); Row 95069 (constant 2); Row 7 (constant 3); Row 60908 (constant 4) ].

(** The scenario of the design document: parent 1 forecast at 100 with
    children 11 and 12 predicted at 30 and 20, and an orphan 13 at 5
    whose parent 99 has no forecast. *)
Definition ex_admin1 : list (@row exact unit) := [ Row 1 (constant 100) ].

Definition ex_admin2 : list (@child exact unit) :=
  [ Child (Row 11 (constant 30)) 1;
    Child (Row 12 (constant 20)) 1;
    Child (Row 13 (constant 5)) 99 ].

(** The same parent forecast at 0. *)
Definition ex_admin1_zero : list (@row exact unit) := [ Row 1 (constant 0) ].

(** A file system in which every path exists, holding one forecast with
    the draws 0 and 1, the prediction above and a hierarchy with three
    rows at the admin-2 level. *)
Definition ex_world : @world exact unit :=
  World (λ _, true) (λ _, false)
        (λ _, [ (0, ex_admin1_zero); (1, ex_admin1) ])
        (λ _, ex_prediction)
        (λ _, [ HRow 5 5 1; HRow 7 5 99; HRow 44858 5 1; HRow 1 4 0 ]).

(** A stand-in for what steps 5 to 10 make of a forecast that holds the
    requested draw not once; no example below gets there. *)
Definition ex_off_axis (_ : @by_draw exact unit) (_ : list (@child exact unit))
  : exn + list (@row exact unit) := inr [].

(** A file system that holds nothing. *)
Definition ex_world_empty : @world exact unit :=
  World (λ _, false) (λ _, false) (λ _, []) (λ _, []) (λ _, []).

(** Hierarchy records for the labels 5, 7 and 44858. *)
Definition ex_hierarchy : list hrow :=
  [ HRow 7 5 99; HRow 5 5 1; HRow 44858 5 1 ].

(** A fine table whose only row has a parent without forecast. *)
Definition ex_orphans : list (@child exact unit) := [ Child (Row 13 (constant 5)) 99 ].

(** The parent of the design document with its forecast missing. *)
Definition ex_admin1_missing : list (@row exact unit) := [ Row 1 (λ _, @NaN exact) ].

(** The example world again, refusing to write the output file. *)
Definition ex_world_readonly : @world exact unit :=
  World (λ _, true)
        (λ e, if e is EvToNetcdf _ then true else false)
        (λ _, [ (0, ex_admin1_zero); (1, ex_admin1) ])
        (λ _, ex_prediction)
        (λ _, [ HRow 5 5 1; HRow 7 5 99; HRow 44858 5 1; HRow 1 4 0 ]).

(** A file system whose hierarchy gives the labels 5 and 7 a parent
    that the forecast does not hold. *)
Definition ex_world_orphans : @world exact unit :=
  World (λ _, true) (λ _, false)
        (λ _, [ (0, ex_admin1) ])
        (λ _, ex_prediction)
        (λ _, [ HRow 5 5 99; HRow 7 5 99 ]).

(** Tables of binary64 cells. *)
Definition cell64 (x : PrimFloat.float) : unit → @float float64 := λ _, x.


Definition f64_admin2 : list (@child float64 unit) :=
  [ Child (Row 11 (cell64 1)) 1; Child (Row 12 (cell64 6)) 1 ].

(** The same parent forecast at 0, and with its forecast missing. *)
Definition f64_admin1_zero : list (@row float64 unit) := [ Row 1 (cell64 0) ].

Definition f64_admin1_missing : list (@row float64 unit) := [ Row 1 (cell64 PrimFloat.nan) ].

(** Parent 1 forecast at 1 with two children whose sum is beyond the
    largest binary64 number. *)
Definition f64_admin1_one : list (@row float64 unit) := [ Row 1 (cell64 1) ].

Definition f64_admin2_huge : list (@child float64 unit) :=
  [ Child (Row 11 (cell64 0x1p+1023)) 1; Child (Row 12 (cell64 0x1p+1023)) 1 ].

(** The successor label and two retired labels, at a tenth, two tenths
    and four tenths. *)
Definition f64_prediction : list (@row float64 unit) :=
  [ Row 44858 (cell64 0x1.999999999999ap-4);
    Row 60908 (cell64 0x1.999999999999ap-3);
    Row 95069 (cell64 0x1.999999999999ap-2) ].

(** * Properties *)

(** ** The two arithmetics *)

Section ExactArithmetic.
Local Existing Instance exact.

(** Exact arithmetic has the laws of cells, and its addition is
    commutative and associative. *)
Lemma exact_laws : ArithLaws.
Proof.
  split; simpl.
  - intros [|x]; simpl; [done|]. f_equal. ring.
  - done.
  - by intros [|x].
  - done.
  - by intros [|x].
  - done.
  - done.
Qed.

Lemma exact_fadd_comm (a b : float) : fadd a b = fadd b a.
Proof. destruct a, b; simpl; try done. f_equal. ring. Qed.

Lemma exact_fadd_assoc (a b c : float) : fadd (fadd a b) c = fadd a (fadd b c).
Proof. destruct a, b, c; simpl; try done. f_equal. ring. Qed.

Lemma exact_fadd_swap (a b c : float) : fadd (fadd a b) c = fadd (fadd a c) b.
Proof. by rewrite !exact_fadd_assoc, (exact_fadd_comm b c). Qed.



End ExactArithmetic.

(** *** Binary64 has the laws of cells *)

(** Rounding the product of a mantissa with the mantissa of 1 gives the
    mantissa back. *)
Lemma binary_round_aux_times_one (s : bool) (m : positive) (e : Z) :
  bounded prec emax m e = true →
  binary_round_aux prec emax s (Z.pos (m * 4503599627370496)) (e + -52) loc_Exact
  = S754_finite s m e.
Proof.
  unfold bounded, canonical_mantissa. intros Hb.
  apply andb_true_iff in Hb as [Hc He]. apply Z.eqb_eq in Hc.
  unfold binary_round_aux, shr_fexp.
  rewrite (Pos.mul_comm m).
  change (4503599627370496 * m)%positive with
    (m~0~0~0~0~0~0~0~0~0~0~0~0~0~0~0~0~0~0~0~0~0~0~0~0~0~0~0~0~0~0~0~0~0~0~0~0~0~0~0~0~0~0~0~0~0~0~0~0~0~0~0~0)%positive.
  set (m52 := (m~0~0~0~0~0~0~0~0~0~0~0~0~0~0~0~0~0~0~0~0~0~0~0~0~0~0~0~0~0~0~0~0~0~0~0~0~0~0~0~0~0~0~0~0~0~0~0~0~0~0~0~0)%positive).
  assert (Zdigits2 (Z.pos m52) = Z.pos (digits2_pos m) + 52) as ->.
  { unfold m52. cbn [Zdigits2 digits2_pos]. rewrite !Pos2Z.inj_succ. lia. }
  replace (Z.pos (digits2_pos m) + 52 + (e + -52)) with (Z.pos (digits2_pos m) + e) by lia.
  rewrite Hc.
  replace (e - (e + -52)) with 52 by lia.
  unfold shr at 1.
  change (SpecFloat.iter_pos shr_1 52 (shr_record_of_loc (Z.pos m52) loc_Exact))
    with {| shr_m := Z.pos m; shr_r := false; shr_s := false |}.
  cbn [shr_m loc_of_shr_record round_nearest_even].
  replace (e + -52 + 52) with e by lia.
  cbn [Zdigits2]. rewrite Hc, Z.sub_diag. cbn [shr shr_record_of_loc shr_m].
  by rewrite He.
Qed.

Lemma float64_laws : @ArithLaws float64.
Proof.
  split; simpl.
  - intros x. apply Prim2SF_inj. rewrite mul_spec.
    change (Prim2SF 1) with (S754_finite false 4503599627370496 (-52)).
    pose proof (Prim2SF_valid x) as Hv.
    destruct (Prim2SF x) as [s|s| |s m e]; cbn [SF64mul SFmul].
    + by rewrite xorb_false_r.
    + by rewrite xorb_false_r.
    + reflexivity.
    + rewrite xorb_false_r. by apply binary_round_aux_times_one.
  - intros x. apply Prim2SF_inj. rewrite mul_spec. reflexivity.
  - intros x. apply Prim2SF_inj. rewrite mul_spec.
    change (Prim2SF PrimFloat.nan) with S754_nan. by destruct (Prim2SF x).
  - intros x. apply Prim2SF_inj. rewrite div_spec. reflexivity.
  - intros x. apply Prim2SF_inj. rewrite div_spec.
    change (Prim2SF PrimFloat.nan) with S754_nan. by destruct (Prim2SF x).
  - reflexivity.
  - reflexivity.
Qed.

(** Binary64 addition is not associative: a tenth, two tenths and four
    tenths add up to two different numbers. *)
Lemma float64_fadd_not_assoc :
  let a : @float float64 := 0x1.999999999999ap-4%float in
  let b : @float float64 := 0x1.999999999999ap-3%float in
  let c : @float float64 := 0x1.999999999999ap-2%float in
  fadd (fadd a b) c ≠ fadd (fadd a c) b.
Proof.
  intros a b c Heq.
  apply (f_equal (λ x, PrimFloat.eqb x (fadd (fadd a c) b))) in Heq.
  vm_compute in Heq. discriminate Heq.
Qed.

(** ** Label lookup *)

Section Lookup.
Context {A : Type} (key : A → Z).

Lemma loc_Some (k : Z) (ds : list A) (r : A) :
  loc key k ds = Some r → r ∈ ds ∧ key r = k.
Proof.
  induction ds as [|x ds IH]; simpl; [done|].
  case_decide as Hk.
  - intros [= <-]. split; [left|done].
  - intros [Hin ?]%IH. split; [by right|done].
Qed.

Lemma loc_None (k : Z) (ds : list A) :
  loc key k ds = None ↔ k ∉ key <$> ds.
Proof.
  induction ds as [|x ds IH]; simpl.
  - split; [intros _; apply not_elem_of_nil|done].
  - rewrite not_elem_of_cons. case_decide as Hk.
    + split; [done|]. intros [? _]. by subst.
    + rewrite IH. split; [intros ?; split; [congruence|done] | by intros [_ ?]].
Qed.

Lemma loc_is_Some (k : Z) (ds : list A) :
  is_Some (loc key k ds) ↔ k ∈ key <$> ds.
Proof.
  rewrite <-not_eq_None_Some, loc_None.
  split; [apply dec_stable|]. by intros ? ?.
Qed.

Lemma loc_NoDup (ds : list A) (r : A) :
  NoDup (key <$> ds) → r ∈ ds → loc key (key r) ds = Some r.
Proof.
  induction ds as [|x ds IH]; simpl; [by intros _ ?%elem_of_nil|].
  rewrite NoDup_cons. intros [Hx Hnd] [->|Hin]%elem_of_cons.
  - by rewrite decide_True.
  - rewrite decide_False; [by apply IH|].
    intros Heq. apply Hx. rewrite Heq. by apply list_elem_of_fmap_2.
Qed.

Lemma loc_app (k : Z) (l1 l2 : list A) :
  loc key k (l1 ++ l2) = match loc key k l1 with Some r => Some r | None => loc key k l2 end.
Proof. induction l1 as [|x l1 IH]; simpl; [done|]. by case_decide. Qed.

(** Selecting labels that are all present, on an axis without repeated
    labels, yields exactly the rows carrying them. *)
Lemma elem_of_sel (labels : list Z) (ds : list A) (r : A) :
  NoDup (key <$> ds) →
  r ∈ sel key labels ds ↔ r ∈ ds ∧ key r ∈ labels.
Proof.
  intros Hnd. unfold sel. rewrite list_elem_of_omap. split.
  - intros (k & Hk & [Hin <-]%loc_Some). done.
  - intros [Hin Hk]. exists (key r). split; [done|]. by apply loc_NoDup.
Qed.

Lemma sel_keys (labels : list Z) (ds : list A) :
  (∀ k, k ∈ labels → k ∈ key <$> ds) →
  key <$> sel key labels ds = labels.
Proof.
  unfold sel. induction labels as [|k labels IH]; intros Hall; simpl; [done|].
  destruct (loc key k ds) as [r|] eqn:Hr.
  - simpl. apply loc_Some in Hr as [_ ->]. f_equal. apply IH.
    intros k' ?. apply Hall. by right.
  - apply loc_None in Hr. destruct Hr. apply Hall. by left.
Qed.

End Lookup.

(** ** Key reconciliation *)

Section Reconciliation.
Context `{Arith} {D : Type}.
Implicit Types (ds : list (row D)) (m : Z → option (D → float)).
Implicit Types (rhs : D → float).

Lemma same_cells_refl (o : option (D → float)) : same_cells o o.
Proof. by destruct o. Qed.

Lemma same_cells_trans (o1 o2 o3 : option (D → float)) :
  same_cells o1 o2 → same_cells o2 o3 → same_cells o1 o3.
Proof.
  destruct o1, o2, o3; simpl; try done.
  intros H1 H2 d. by rewrite H1.
Qed.

Lemma merge_cells_proper (n n' o o' : option (D → float)) :
  same_cells n n' → same_cells o o' → same_cells (merge_cells n o) (merge_cells n' o').
Proof.
  destruct n, n', o, o'; simpl; try done.
  intros H1 H2 d. by rewrite H1, H2.
Qed.

Lemma cell_None ds id : cell ds id = None ↔ id ∉ ids ds.
Proof. unfold cell, ids. rewrite fmap_None. apply loc_None. Qed.

Lemma cell_is_Some ds id : is_Some (cell ds id) ↔ id ∈ ids ds.
Proof. unfold cell, ids. rewrite fmap_is_Some. apply loc_is_Some. Qed.

(** *** The three table operations on the view *)

Lemma ids_add_into new_id rhs ds : ids (add_into new_id rhs ds) = ids ds.
Proof.
  unfold ids, add_into. rewrite <-list_fmap_compose.
  apply list_fmap_ext. intros _ r _. simpl. by case_decide.
Qed.

Lemma cell_add_into new_id rhs ds id :
  cell (add_into new_id rhs ds) id =
    if decide (id = new_id)
    then (λ v d, fadd (v d) (rhs d)) <$> cell ds id
    else cell ds id.
Proof.
  unfold cell, add_into. induction ds as [|r ds IH]; csimpl.
  - by case_decide.
  - destruct (decide (location_id r = new_id)) as [Hr|Hr]; simpl;
      destruct (decide (location_id r = id)) as [Hi|Hi]; simpl; try apply IH.
    + rewrite decide_True by congruence. done.
    + rewrite decide_False by congruence. done.
Qed.

Lemma ids_drop_sel old_id ds id :
  id ∈ ids (drop_sel old_id ds) ↔ id ∈ ids ds ∧ id ≠ old_id.
Proof.
  unfold ids, drop_sel. rewrite !list_elem_of_fmap. split.
  - intros (r & -> & [? ?]%list_elem_of_filter). eauto.
  - intros [(r & -> & ?) ?]. exists r. split; [done|]. by apply list_elem_of_filter.
Qed.

Lemma cell_drop_sel old_id ds id :
  cell (drop_sel old_id ds) id = if decide (id = old_id) then None else cell ds id.
Proof.
  unfold cell, drop_sel. induction ds as [|r ds IH]; csimpl.
  - by case_decide.
  - rewrite filter_cons. destruct (decide (location_id r ≠ old_id)) as [Hr|Hr]; simpl.
    + destruct (decide (location_id r = id)) as [Hi|Hi]; [|done].
      rewrite decide_False by congruence. done.
    + apply dec_stable in Hr. rewrite IH.
      destruct (decide (id = old_id)) as [->|Hi]; [done|].
      rewrite decide_False by congruence. done.
Qed.

Lemma ids_relabel old_id new_id ds :
  ids (relabel old_id new_id ds) =
    (λ i, if decide (i = old_id) then new_id else i) <$> ids ds.
Proof.
  unfold ids, relabel. rewrite <-!list_fmap_compose.
  apply list_fmap_ext. intros _ r _. simpl. by case_decide.
Qed.

Lemma cell_relabel old_id new_id ds id :
  old_id ≠ new_id → new_id ∉ ids ds →
  cell (relabel old_id new_id ds) id =
    if decide (id = old_id) then None
    else if decide (id = new_id) then cell ds old_id
    else cell ds id.
Proof.
  intros Hne. unfold cell, relabel, ids.
  induction ds as [|r ds IH]; csimpl.
  - intros _. by repeat case_decide.
  - rewrite not_elem_of_cons. intros [Hn Hnin]. specialize (IH Hnin).
    destruct (decide (location_id r = old_id)) as [Hr|Hr]; simpl;
      rewrite ?IH; repeat case_decide; simplify_eq/=; done.
Qed.

Lemma NoDup_ids_filter (P : row D → Prop) `{!∀ r, Decision (P r)} ds :
  NoDup (ids ds) → NoDup (ids (filter P ds)).
Proof.
  unfold ids. intros Hnd. eapply sublist_NoDup; [done|].
  apply fmap_sublist, sublist_filter.
Qed.

Lemma NoDup_ids_relabel old_id new_id ds :
  new_id ∉ ids ds → NoDup (ids ds) → NoDup (ids (relabel old_id new_id ds)).
Proof.
  intros Hnew Hnd. rewrite ids_relabel. apply NoDup_fmap_2_strong; [|done].
  intros x y Hx Hy. repeat case_decide; congruence.
Qed.

(** *** One loop iteration *)

Lemma impute_step_absent ds old_id new_id :
  old_id ∉ ids ds → impute_step ds (old_id, new_id) = ds.
Proof.
  intros Habs. unfold impute_step.
  rewrite (bool_decide_eq_false_2 (old_id ∈ ids ds)) by done.
  by rewrite (bool_decide_eq_false_2 (old_id ∈ ids ds)) by done.
Qed.

Lemma impute_step_ids ds old_id new_id x :
  x ∈ ids (impute_step ds (old_id, new_id)) → x ≠ old_id.
Proof.
  unfold impute_step.
  match goal with |- context [drop_sel _ ?mid] => generalize mid end.
  intros ds1. case_bool_decide as Hold.
  - by intros [_ ?]%ids_drop_sel.
  - by intros ? ->.
Qed.

Lemma impute_step_old_gone ds old_id new_id :
  old_id ∉ ids (impute_step ds (old_id, new_id)).
Proof. by intros Hin%impute_step_ids. Qed.

Lemma impute_step_keeps_absent ds old_id new_id x :
  x ≠ new_id → x ∉ ids ds → x ∉ ids (impute_step ds (old_id, new_id)).
Proof.
  intros Hx Habs. unfold impute_step.
  assert (x ∉ ids (if bool_decide (old_id ∈ ids ds)
                   then if bool_decide (new_id ∈ ids ds)
                        then match loc location_id old_id ds with
                             | Some r_old => add_into new_id (value r_old) ds
                             | None => ds
                             end
                        else relabel old_id new_id ds
                   else ds)) as Hmid.
  { destruct (bool_decide (old_id ∈ ids ds)); [|done].
    destruct (bool_decide (new_id ∈ ids ds)).
    - destruct (loc location_id old_id ds); [by rewrite ids_add_into|done].
    - rewrite ids_relabel. intros (i & -> & Hi)%list_elem_of_fmap.
      case_decide; congruence. }
  revert Hmid. match goal with |- context [drop_sel _ ?mid] => generalize mid end.
  intros ds1 Hmid. destruct (bool_decide _); [|done].
  by intros [? _]%ids_drop_sel.
Qed.

Lemma impute_step_NoDup ds old_id new_id :
  NoDup (ids ds) → NoDup (ids (impute_step ds (old_id, new_id))).
Proof.
  intros Hnd. unfold impute_step.
  assert (NoDup (ids (if bool_decide (old_id ∈ ids ds)
                   then if bool_decide (new_id ∈ ids ds)
                        then match loc location_id old_id ds with
                             | Some r_old => add_into new_id (value r_old) ds
                             | None => ds
                             end
                        else relabel old_id new_id ds
                   else ds))) as Hmid.
  { destruct (bool_decide (old_id ∈ ids ds)); [|done].
    case_bool_decide.
    - destruct (loc location_id old_id ds); [by rewrite ids_add_into|done].
    - by apply NoDup_ids_relabel. }
  revert Hmid. match goal with |- context [drop_sel _ ?mid] => generalize mid end.
  intros ds1 Hmid. destruct (bool_decide _); [|done].
  by apply NoDup_ids_filter.
Qed.

(** The iteration does on the view what [step_view] says: the old
    label disappears, its cells are added into those of the new label
    when that one is present and become the cells of the new label
    otherwise, and every other label keeps its cells. *)
Lemma impute_step_view ds old_id new_id id :
  NoDup (ids ds) → old_id ≠ new_id →
  same_cells (cell (impute_step ds (old_id, new_id)) id)
             (step_view (cell ds) (old_id, new_id) id).
Proof.
  intros Hnd Hne. unfold impute_step, step_view. simpl.
  destruct (decide (old_id ∈ ids ds)) as [Hold|Hold].
  - rewrite (bool_decide_eq_true_2 (old_id ∈ ids ds)) by done.
    apply cell_is_Some in Hold as Hcold. destruct Hcold as [vo Hvo].
    destruct (decide (new_id ∈ ids ds)) as [Hnew|Hnew].
    + rewrite (bool_decide_eq_true_2 (new_id ∈ ids ds)) by done.
      apply cell_is_Some in Hnew as Hcnew. destruct Hcnew as [vn Hvn].
      destruct (loc location_id old_id ds) as [r_old|] eqn:Hloc;
        [|by apply loc_None in Hloc].
      assert (vo = value r_old) as ->.
      { unfold cell in Hvo. rewrite Hloc in Hvo. by injection Hvo. }
      rewrite (bool_decide_eq_true_2 _) by by rewrite ids_add_into.
      rewrite cell_drop_sel, cell_add_into.
      repeat case_decide; simplify_eq/=; try done.
      * rewrite Hvn, Hvo. simpl. done.
      * apply same_cells_refl.
    + rewrite (bool_decide_eq_false_2 (new_id ∈ ids ds)) by done.
      apply cell_None in Hnew as Hcnew.
      rewrite (bool_decide_eq_false_2 (old_id ∈ ids (relabel old_id new_id ds))).
      * rewrite cell_relabel by done.
        repeat case_decide; simplify_eq/=; try done.
        -- rewrite Hcnew, Hvo. simpl. done.
        -- apply same_cells_refl.
      * rewrite ids_relabel. intros (i & Hi & _)%list_elem_of_fmap.
        case_decide; congruence.
  - rewrite (bool_decide_eq_false_2 (old_id ∈ ids ds)) by done.
    apply cell_None in Hold as Hcold.
    rewrite (bool_decide_eq_false_2 _) by done.
    repeat case_decide; simplify_eq/=.
    + by rewrite Hcold.
    + rewrite Hcold. simpl. apply same_cells_refl.
    + apply same_cells_refl.
Qed.

(** *** The loop on the view *)

Lemma step_view_proper m m' item id :
  (∀ i, same_cells (m i) (m' i)) →
  same_cells (step_view m item id) (step_view m' item id).
Proof.
  intros Hm. unfold step_view. repeat case_decide; try done.
  by apply merge_cells_proper.
Qed.

Lemma foldl_step_view_proper items m m' id :
  (∀ i, same_cells (m i) (m' i)) →
  same_cells (foldl step_view m items id) (foldl step_view m' items id).
Proof.
  revert m m' id. induction items as [|item items IH]; intros m m' id Hm; simpl.
  - apply Hm.
  - apply IH. intros i. by apply step_view_proper.
Qed.

(** Two iterations on distinct old ids commute, as long as neither new
    id is one of the old ids. *)
Lemma step_view_comm m o1 n1 o2 n2 id :
  sums_order_free →
  o1 ≠ o2 → n1 ≠ o1 → n1 ≠ o2 → n2 ≠ o1 → n2 ≠ o2 →
  same_cells (step_view (step_view m (o1, n1)) (o2, n2) id)
             (step_view (step_view m (o2, n2)) (o1, n1) id).
Proof.
  intros [fadd_comm fadd_swap]. intros. unfold step_view; simpl.
  repeat (case_decide; simplify_eq/=); try done;
    try apply same_cells_refl;
    destruct (m o1), (m o2); simpl; try apply same_cells_refl;
    destruct (m n1); simpl; try apply same_cells_refl;
    intros d; first [apply fadd_swap | apply fadd_comm].
Qed.

Lemma rewrite_map_cons o n items :
  rewrite_map ((o, n) :: items) →
  rewrite_map items ∧ o ≠ n ∧
  (∀ o' n', (o', n') ∈ items → o ≠ o' ∧ n ≠ o' ∧ n' ≠ o ∧ n' ≠ o').
Proof.
  intros [[Ho Hnd]%NoDup_cons Hn]. simpl in *. split; [|split].
  - split; [done|]. intros n' Hn' Hin. apply (Hn n'); [by right|by right].
  - intros ->. apply (Hn n); left.
  - intros o' n' Hin.
    assert (o' ∈ items.*1) by by apply (list_elem_of_fmap_2 fst _ (o', n')).
    assert (n' ∈ items.*2) by by apply (list_elem_of_fmap_2 snd _ (o', n')).
    repeat split.
    + by intros ->.
    + intros ->. apply (Hn o'); [left|by right].
    + intros ->. apply (Hn o); [by right|left].
    + intros ->. apply (Hn o'); [by right|by right].
Qed.

Lemma rewrite_map_Permutation items items' :
  items ≡ₚ items' → rewrite_map items → rewrite_map items'.
Proof.
  intros Hp [Hnd Hn]. split.
  - by rewrite <-Hp.
  - intros n. rewrite <-Hp. apply Hn.
Qed.

(** On the view, where sums do not depend on the order of their terms,
    the result of the loop does not depend on the order in which the
    items of a rewrite map are processed. *)
Lemma foldl_step_view_Permutation items items' :
  sums_order_free →
  items ≡ₚ items' → rewrite_map items →
  ∀ m id, same_cells (foldl step_view m items id) (foldl step_view m items' id).
Proof.
  intros Hfree. induction 1 as [|[o n] l l' Hp IH|[o1 n1] [o2 n2] l|l l' l'' Hp1 IH1 Hp2 IH2];
    intros Hwf m id.
  - apply same_cells_refl.
  - simpl. apply IH. by apply rewrite_map_cons in Hwf as [? _].
  - simpl. apply foldl_step_view_proper. intros i.
    apply rewrite_map_cons in Hwf as (Hwf & Hne1 & Hrest).
    destruct (Hrest o1 n1) as (? & ? & ? & ?); [left|].
    apply rewrite_map_cons in Hwf as (_ & Hne2 & _).
    apply step_view_comm; congruence.
  - eapply same_cells_trans; [by apply IH1|].
    apply IH2. by eapply rewrite_map_Permutation.
Qed.

(** The loop of [impute_location_ids] computes, on the view, the fold
    of [step_view]. *)
Lemma impute_with_cons item items ds :
  impute_with (item :: items) ds = impute_with items (impute_step ds item).
Proof. reflexivity. Qed.

Lemma impute_with_view items ds id :
  NoDup (ids ds) → rewrite_map items →
  same_cells (cell (impute_with items ds) id) (foldl step_view (cell ds) items id).
Proof.
  revert ds id.
  induction items as [|[o n] items IH]; intros ds id Hnd Hwf.
  - apply same_cells_refl.
  - rewrite impute_with_cons. cbn [foldl].
    apply rewrite_map_cons in Hwf as (Hwf & Hne & _).
    eapply same_cells_trans.
    + apply IH; [by apply impute_step_NoDup|done].
    + apply foldl_step_view_proper. intros i. by apply impute_step_view.
Qed.

Lemma IMPUTE_MAP_rewrite_map : rewrite_map IMPUTE_MAP.
Proof.
  split.
  - apply (bool_decide_unpack _). by vm_compute.
  - intros n Hn Ho. simpl in *.
    rewrite !elem_of_cons, elem_of_nil in Hn, Ho.
    destruct Hn as [->|[->|[->|[]]]]; destruct Ho as [?|[?|[?|[]]]]; done.
Qed.

Lemma impute_with_absent items ds :
  (∀ o, o ∈ items.*1 → o ∉ ids ds) → impute_with items ds = ds.
Proof.
  induction items as [|[o n] items IH]; intros Habs; [done|].
  rewrite impute_with_cons, impute_step_absent by (apply Habs; left).
  apply IH. intros o' ?. apply Habs. by right.
Qed.

Lemma impute_with_old_gone items ds o :
  o ∈ items.*1 → (∀ n, n ∈ items.*2 → n ≠ o) → o ∉ ids (impute_with items ds).
Proof.
  revert ds.
  induction items as [|[o' n'] items IH]; intros ds Ho Hn.
  - by apply elem_of_nil in Ho.
  - rewrite impute_with_cons. rewrite fmap_cons in Ho. simpl in Ho.
    assert (∀ n, n ∈ items.*2 → n ≠ o) as Hn' by (intros n ?; apply Hn; by right).
    destruct (decide (o ∈ items.*1)) as [Hin|Hnin]; [by apply IH|].
    apply elem_of_cons in Ho as [->|?]; [|done].
    clear IH. generalize (impute_step_old_gone ds o' n').
    generalize (impute_step ds (o', n')). clear -Hn'.
    induction items as [|[o2 n2] items IH]; intros ds1 Hgone; [done|].
    rewrite impute_with_cons. apply IH.
    + intros n ?. apply Hn'. by right.
    + apply impute_step_keeps_absent; [|done].
      intros ->. by apply (Hn' n2); [left|].
Qed.

Lemma same_cells_sym (o1 o2 : option (D → float)) :
  same_cells o1 o2 → same_cells o2 o1.
Proof. destruct o1, o2; simpl; done. Qed.

Lemma IMPUTE_MAP_old_new old_id new_id :
  (old_id, new_id) ∈ IMPUTE_MAP →
  old_id ∈ IMPUTE_MAP.*1 ∧ new_id = 44858 ∧ old_id ≠ new_id ∧
  ∀ n, n ∈ IMPUTE_MAP.*2 → n ≠ old_id.
Proof.
  intros Hin. pose proof IMPUTE_MAP_rewrite_map as [_ Hwf].
  assert (old_id ∈ IMPUTE_MAP.*1) as Ho
    by by apply (list_elem_of_fmap_2 fst _ (old_id, new_id)).
  assert (new_id ∈ IMPUTE_MAP.*2) as Hn
    by by apply (list_elem_of_fmap_2 snd _ (old_id, new_id)).
  repeat split; [done| | |].
  - simpl in Hn. rewrite !elem_of_cons, elem_of_nil in Hn.
    by destruct Hn as [->|[->|[->|[]]]].
  - intros ->. by apply (Hwf new_id).
  - intros n ? ->. by apply (Hwf old_id).
Qed.

(** C6.  Key reconciliation is idempotent: a second run of
    [impute_location_ids] returns the table the first run produced. *)
Theorem impute_location_ids_idempotent (ds : list (row D)) :
  impute_location_ids (impute_location_ids ds) = impute_location_ids ds.
Proof.
  unfold impute_location_ids at 1. apply impute_with_absent.
  intros o Ho. unfold impute_location_ids.
  apply impute_with_old_gone; [done|].
  intros n Hn ->. pose proof IMPUTE_MAP_rewrite_map as [_ Hwf]. by apply (Hwf o).
Qed.

(** C5.  Key reconciliation on a table with distinct labels.
    (1) An iteration of the loop whose old id is present removes it,
        leaves the cells of every other label but the new id alone, and
        either adds the old cells into those of the new id, when that
        is present, or relabels the old row as the new id.
    (2) After the loop no old id of the map is a label of the table.
    (3) The cells left under 44858 are those of 44858 and of every old
        id that was present, added up in the order of the map; all
        other labels keep theirs.
    (4) Where sums do not depend on the order of their terms,
        processing the items in another order gives the same cells
        under every label. *)
Theorem impute_location_ids_reconciles (ds : list (row D)) :
  NoDup (ids ds) →
  (∀ (t : list (row D)) old_id new_id,
     (old_id, new_id) ∈ IMPUTE_MAP → NoDup (ids t) → old_id ∈ ids t →
     let t' := impute_step t (old_id, new_id) in
     ((old_id ∉ ids t') ∧
      (∀ id, id ≠ old_id → id ≠ new_id → same_cells (cell t' id) (cell t id)) ∧
      (new_id ∈ ids t →
         ∃ vn vo v, cell t new_id = Some vn ∧ cell t old_id = Some vo ∧
                    cell t' new_id = Some v ∧ ∀ d, v d = fadd (vn d) (vo d)) ∧
      (new_id ∉ ids t →
         t' = relabel old_id new_id t ∧ same_cells (cell t' new_id) (cell t old_id)))) ∧
  (∀ old_id new_id,
     (old_id, new_id) ∈ IMPUTE_MAP → old_id ∉ ids (impute_location_ids ds)) ∧
  same_cells (cell (impute_location_ids ds) 44858)
             (merge_cells (merge_cells (merge_cells (cell ds 44858) (cell ds 60908))
                                       (cell ds 95069))
                          (cell ds 94364)) ∧
  (∀ id, id ∉ IMPUTE_MAP.*1 → id ≠ 44858 →
         same_cells (cell (impute_location_ids ds) id) (cell ds id)) ∧
  (sums_order_free →
   ∀ items id,
     items ≡ₚ IMPUTE_MAP →
     same_cells (cell (impute_with items ds) id) (cell (impute_location_ids ds) id)).
Proof.
  intros Hnd. split; [|split; [|split; [|split]]].
  - intros t old_id new_id Hitem Hndt Hold t'.
    apply IMPUTE_MAP_old_new in Hitem as (_ & _ & Hne & _).
    pose proof (impute_step_view t old_id new_id) as Hview.
    split; [apply impute_step_old_gone|]. split; [|split].
    + intros id Ho Hn. specialize (Hview id Hndt Hne).
      unfold step_view in Hview. cbn [fst snd] in Hview.
      by rewrite !decide_False in Hview by done.
    + intros Hnew. specialize (Hview new_id Hndt Hne).
      unfold step_view in Hview. cbn [fst snd] in Hview.
      rewrite decide_False, decide_True in Hview by done.
      apply cell_is_Some in Hnew as [vn Hvn]. apply cell_is_Some in Hold as [vo Hvo].
      rewrite Hvn, Hvo in Hview. cbn [merge_cells] in Hview.
      destruct (cell (impute_step t (old_id, new_id)) new_id) as [v|] eqn:Hv; [|done].
      exists vn, vo, v. repeat split; try done.
    + intros Hnew. split.
      * unfold t', impute_step.
        rewrite (bool_decide_eq_true_2 (old_id ∈ ids t)) by done.
        rewrite (bool_decide_eq_false_2 (new_id ∈ ids t)) by done.
        rewrite bool_decide_eq_false_2; [done|].
        rewrite ids_relabel. intros (i & Hi & _)%list_elem_of_fmap.
        case_decide; congruence.
      * specialize (Hview new_id Hndt Hne).
        unfold step_view in Hview. cbn [fst snd] in Hview.
        rewrite decide_False, decide_True in Hview by done.
        apply cell_None in Hnew. apply cell_is_Some in Hold as [vo Hvo].
        rewrite Hnew, Hvo in Hview. rewrite Hvo. exact Hview.
  - intros old_id new_id (? & _ & _ & ?)%IMPUTE_MAP_old_new.
    by apply impute_with_old_gone.
  - apply (impute_with_view IMPUTE_MAP ds 44858 Hnd IMPUTE_MAP_rewrite_map).
  - intros id Hid Hnew.
    pose proof (impute_with_view IMPUTE_MAP ds id Hnd IMPUTE_MAP_rewrite_map) as Hview.
    simpl in Hid. rewrite !not_elem_of_cons in Hid. destruct Hid as (? & ? & ? & _).
    unfold IMPUTE_MAP in Hview at 2. cbn [foldl] in Hview.
    unfold step_view in Hview. cbn [fst snd] in Hview.
    by rewrite !decide_False in Hview by done.
  - intros Hfree items id Hp.
    assert (rewrite_map items) as Hwf.
    { eapply rewrite_map_Permutation; [symmetry; exact Hp|]. apply IMPUTE_MAP_rewrite_map. }
    eapply same_cells_trans; [by apply impute_with_view|].
    eapply same_cells_trans; [by apply foldl_step_view_Permutation|].
    apply same_cells_sym. by apply impute_with_view, IMPUTE_MAP_rewrite_map.
Qed.

End Reconciliation.

(** The order of the rows is another matter: the successor takes the
    place of whichever old label is processed first. *)
Remark impute_with_row_order :
  ids (impute_with IMPUTE_MAP ex_prediction) = [5; 7; 44858] ∧
  ids (impute_with (rev IMPUTE_MAP) ex_prediction) = [5; 44858; 7].
Proof. split; reflexivity. Qed.

Lemma exact_sums_order_free : @sums_order_free exact.
Proof. split; [apply exact_fadd_comm|apply exact_fadd_swap]. Qed.

(** In binary64 the order of the items shows: with the successor at a
    tenth and two retired labels at two and four tenths, the map read
    backwards leaves another number under 44858. *)
Lemma impute_location_ids_order_float64 :
  NoDup (ids f64_prediction) ∧
  rev IMPUTE_MAP ≡ₚ IMPUTE_MAP ∧
  ¬ same_cells (cell (impute_with (rev IMPUTE_MAP) f64_prediction) 44858)
               (cell (impute_location_ids f64_prediction) 44858).
Proof.
  split; [apply (bool_decide_unpack _); by vm_compute|].
  split; [apply Permutation_rev|].
  intros Hsame. apply float64_fadd_not_assoc. symmetry. exact (Hsame tt).
Qed.

(** ** Raking *)

Section Raking.
Context `{Arith} `{!ArithLaws} {D : Type}.
Implicit Types (c : child D) (r : row D) (p : Z) (d : D).

Lemma factor_cell_cases (aggregate coarse : float) :
  factor_cell aggregate coarse =
    if is_zero aggregate || is_zero coarse then one else fdiv coarse aggregate.
Proof. unfold factor_cell, where_. by destruct (is_zero aggregate). Qed.

(** The denominator handed to the division is never zero. *)
Lemma factor_cell_denominator (aggregate : float) :
  is_zero (where_ (is_zero aggregate) one aggregate) = false.
Proof.
  unfold where_. destruct (is_zero aggregate) eqn:Hz; [apply is_zero_one|done].
Qed.

Lemma loc_fmap {A B} (key : A → Z) (key' : B → Z) (h : A → B) (k : Z) (l : list A) :
  (∀ a, key' (h a) = key a) →
  loc key' k (h <$> l) = h <$> loc key k l.
Proof.
  intros Hkey. induction l as [|a l IH]; csimpl; [done|].
  rewrite Hkey. by case_decide.
Qed.

Lemma loc_keyed (f : Z → D → float) (k : Z) (keys : list Z) :
  k ∈ keys → loc location_id k ((λ p, Row p (f p)) <$> keys) = Some (Row k (f k)).
Proof.
  induction keys as [|k' keys IH]; csimpl; [by intros ?%elem_of_nil|].
  intros Hin. case_decide as Hk; [by subst|].
  apply IH. by apply elem_of_cons in Hin as [->|?].
Qed.

Lemma zip_with_reindexed {A B C} (f : B → A → C) (g : Z → B) (key : A → Z) (l : list A) :
  zip_with f (g <$> (key <$> l)) l = (λ a, f (g (key a)) a) <$> l.
Proof. induction l as [|a l IH]; csimpl; [done|]. by rewrite IH. Qed.

Lemma filter_ext_elem_of {A} (P Q : A → Prop)
    `{!∀ x, Decision (P x)} `{!∀ x, Decision (Q x)} (l : list A) :
  (∀ x, x ∈ l → P x ↔ Q x) → filter P l = filter Q l.
Proof.
  induction l as [|x l IH]; intros Hext; [done|].
  rewrite !filter_cons.
  rewrite IH by (intros y ?; apply Hext; by right).
  destruct (decide (P x)) as [HP|HP], (decide (Q x)) as [HQ|HQ]; try done.
  - destruct HQ. apply Hext; [left|done].
  - destruct HP. apply Hext; [left|done].
Qed.

(** *** Partitioning *)

Lemma elem_of_common_parents (ds_admin2 : list (child D)) (ds_admin1 : list (row D)) p :
  p ∈ common_parents ds_admin2 ds_admin1 ↔
  p ∈ parent_id <$> ds_admin2 ∧ p ∈ ids ds_admin1.
Proof. unfold common_parents. by rewrite elem_of_intersection, !elem_of_list_to_set. Qed.

Lemma elem_of_with_parent (ds_admin2 : list (child D)) (ds_admin1 : list (row D)) c :
  c ∈ (split_ds_admin2 ds_admin2 ds_admin1).1 ↔
  c ∈ ds_admin2 ∧ parent_id c ∈ ids ds_admin1.
Proof.
  simpl. rewrite list_elem_of_filter, elem_of_elements, elem_of_common_parents.
  split; [by intros [[_ ?] ?]|]. intros [Hc Hp]. repeat split; try done.
  by apply list_elem_of_fmap_2.
Qed.

Lemma elem_of_without_parent (ds_admin2 : list (child D)) (ds_admin1 : list (row D)) c :
  c ∈ (split_ds_admin2 ds_admin2 ds_admin1).2 ↔
  c ∈ ds_admin2 ∧ parent_id c ∉ ids ds_admin1.
Proof.
  simpl. rewrite list_elem_of_filter, elem_of_elements, elem_of_common_parents.
  split.
  - intros [Hn Hc]. split; [done|]. intros Hp. apply Hn. split; [|done].
    by apply list_elem_of_fmap_2.
  - intros [Hc Hp]. split; [|done]. by intros [_ ?].
Qed.

Lemma with_parent_parents (ds_admin2 : list (child D)) (ds_admin1 : list (row D)) p :
  p ∈ parent_id <$> (split_ds_admin2 ds_admin2 ds_admin1).1 ↔
  p ∈ common_parents ds_admin2 ds_admin1.
Proof.
  rewrite elem_of_common_parents, list_elem_of_fmap. split.
  - intros (c & -> & [Hc Hp]%elem_of_with_parent). split; [|done].
    by apply list_elem_of_fmap_2.
  - intros [(c & -> & Hc)%list_elem_of_fmap Hp]. exists c. split; [done|].
    by apply elem_of_with_parent.
Qed.

(** The restricted coarse table carries exactly the common parents. *)
Lemma ids_admin1_with_parent (ds_admin2 : list (child D)) (ds_admin1 : list (row D)) :
  ids (split_ds_admin1 ds_admin2 ds_admin1).1 =
    elements (common_parents ds_admin2 ds_admin1).
Proof.
  simpl. unfold ids. apply sel_keys.
  intros k [_ ?]%elem_of_elements%elem_of_common_parents. done.
Qed.

Lemma elem_of_admin1_with_parent (ds_admin2 : list (child D)) (ds_admin1 : list (row D)) r :
  NoDup (ids ds_admin1) →
  r ∈ (split_ds_admin1 ds_admin2 ds_admin1).1 ↔
  r ∈ ds_admin1 ∧ location_id r ∈ parent_id <$> ds_admin2.
Proof.
  intros Hnd. simpl. rewrite elem_of_sel by done.
  rewrite elem_of_elements, elem_of_common_parents.
  split; [by intros [? [? _]]|]. intros [Hr Hp]. repeat split; try done.
  by apply list_elem_of_fmap_2.
Qed.

Lemma NoDup_ids_admin1_with_parent (ds_admin2 : list (child D)) (ds_admin1 : list (row D)) :
  NoDup (ids (split_ds_admin1 ds_admin2 ds_admin1).1).
Proof. rewrite ids_admin1_with_parent. apply NoDup_elements. Qed.

(** *** Factor computation *)

Lemma groupby_parent_sum_inr (ds_admin2 : list (child D)) :
  ds_admin2 ≠ [] → groupby_parent_sum ds_admin2 = inr (parent_sums ds_admin2).
Proof. by destruct ds_admin2. Qed.

Lemma sum_and_align_admin2_totals_inr (ds_admin2 : list (child D)) (ds_admin1 : list (row D)) :
  ds_admin2 ≠ [] →
  sum_and_align_admin2_totals ds_admin2 ds_admin1 = inr (aligned_factor ds_admin2 ds_admin1).
Proof.
  intros Hne. unfold sum_and_align_admin2_totals.
  by rewrite groupby_parent_sum_inr by done.
Qed.

(** Without a fine row there is nothing to group, and [groupby] raises. *)
Lemma sum_and_align_admin2_totals_empty (ds_admin1 : list (row D)) :
  sum_and_align_admin2_totals [] ds_admin1 = inl (ValueError "parent_id must not be empty").
Proof. reflexivity. Qed.

Lemma loc_parent_sums (ds_admin2 : list (child D)) p :
  p ∈ parent_id <$> ds_admin2 →
  loc location_id p (parent_sums ds_admin2) = Some (Row p (group_sum ds_admin2 p)).
Proof.
  intros Hp. unfold parent_sums. apply (loc_keyed (group_sum ds_admin2)).
  by rewrite merge_sort_Permutation, elem_of_remove_dups.
Qed.

Lemma aligned_factor_rows (ds_admin2 : list (child D)) (ds_admin1 : list (row D)) :
  aligned_factor ds_admin2 ds_admin1 =
    (λ r, Row (location_id r) (λ d,
            factor_cell
              (value (default (Row (location_id r) (λ _, NaN))
                              (loc location_id (location_id r) (parent_sums ds_admin2))) d)
              (value r d))) <$> ds_admin1.
Proof.
  unfold aligned_factor, reindex, ids.
  by rewrite (zip_with_reindexed _ _ location_id).
Qed.

Lemma ids_aligned_factor (ds_admin2 : list (child D)) (ds_admin1 : list (row D)) :
  ids (aligned_factor ds_admin2 ds_admin1) = ids ds_admin1.
Proof.
  rewrite aligned_factor_rows. unfold ids.
  rewrite <-list_fmap_compose. by apply list_fmap_ext.
Qed.

(** The factor stored for a coarse row whose id is the parent of some
    fine row: the coarse cell over the sum of the children, or 1. *)
Lemma cell_aligned_factor (ds_admin2 : list (child D)) (ds_admin1 : list (row D)) r :
  NoDup (ids ds_admin1) → r ∈ ds_admin1 →
  location_id r ∈ parent_id <$> ds_admin2 →
  ∃ f, cell (aligned_factor ds_admin2 ds_admin1) (location_id r) = Some f ∧
       ∀ d, f d = factor_cell (group_sum ds_admin2 (location_id r) d) (value r d).
Proof.
  intros Hnd Hr Hp. unfold cell.
  rewrite aligned_factor_rows.
  rewrite (loc_fmap location_id) by done.
  rewrite (loc_NoDup location_id) by done. simpl.
  eexists. split; [done|]. intros d. simpl.
  by rewrite loc_parent_sums.
Qed.

(** A coarse row without any fine child gets NaN for an aggregate, and
    with it a NaN factor unless its own cell is 0. *)
Lemma cell_aligned_factor_childless (ds_admin2 : list (child D)) (ds_admin1 : list (row D)) r :
  NoDup (ids ds_admin1) → r ∈ ds_admin1 →
  location_id r ∉ parent_id <$> ds_admin2 →
  ∃ f, cell (aligned_factor ds_admin2 ds_admin1) (location_id r) = Some f ∧
       ∀ d, f d = if is_zero (value r d) then one else NaN.
Proof.
  intros Hnd Hr Hp. unfold cell.
  rewrite aligned_factor_rows.
  rewrite (loc_fmap location_id) by done.
  rewrite (loc_NoDup location_id) by done. simpl.
  eexists. split; [done|]. intros d. simpl.
  assert (loc location_id (location_id r) (parent_sums ds_admin2) = None) as ->.
  { apply loc_None. unfold parent_sums. rewrite <-list_fmap_compose.
    intros (k & Hk & Hin)%list_elem_of_fmap. simpl in Hk.
    rewrite merge_sort_Permutation, elem_of_remove_dups in Hin. congruence. }
  simpl. unfold factor_cell, where_. rewrite is_zero_NaN. simpl.
  destruct (is_zero (value r d)); [done|]. apply fdiv_NaN_r.
Qed.

(** *** Broadcast and apply *)

Lemma broadcast_factor_to_admin2_rows (ds_admin2 : list (child D)) (factor : list (row D)) :
  (∀ c, c ∈ ds_admin2 → parent_id c ∈ ids factor) →
  broadcast_factor_to_admin2 ds_admin2 factor = Some (apply_factor factor <$> ds_admin2).
Proof.
  intros Hall. unfold broadcast_factor_to_admin2.
  apply mapM_Some_2, Forall2_fmap_r, Forall_Forall2_diag, Forall_forall.
  intros c Hc. unfold apply_factor, factor_at. cbv beta delta [compose].
  destruct (loc location_id (parent_id c) factor) as [f|] eqn:Hf; [done|].
  apply loc_None in Hf. destruct Hf. by apply Hall.
Qed.

Lemma build_raked_dataset_rows (ds_admin2 : list (child D)) (g : child D → row D) :
  NoDup (ids (child_row <$> ds_admin2)) →
  (∀ c, location_id (g c) = location_id c) →
  build_raked_dataset ds_admin2 (g <$> ds_admin2) =
    (λ c, Child (Row (location_id c) (value (g c))) (parent_id c)) <$> ds_admin2.
Proof.
  intros Hnd Hg. unfold build_raked_dataset.
  apply list_fmap_ext. intros _ c Hc%list_elem_of_lookup_2.
  rewrite (loc_fmap (λ c : child D, location_id c)) by done.
  rewrite (loc_NoDup (λ c : child D, location_id c)); [done| |done].
  unfold ids in Hnd. by rewrite <-list_fmap_compose in Hnd.
Qed.

Lemma build_raked_dataset_ids (ds_admin2 : list (child D)) (raked_values : list (row D)) :
  ids (child_row <$> build_raked_dataset ds_admin2 raked_values) =
    ids (child_row <$> ds_admin2).
Proof.
  unfold build_raked_dataset, ids. rewrite <-!list_fmap_compose.
  by apply list_fmap_ext.
Qed.

Lemma with_parent_has_factor (ds_admin2 : list (child D)) (ds_admin1 : list (row D)) c :
  c ∈ (split_ds_admin2 ds_admin2 ds_admin1).1 →
  parent_id c ∈ ids (aligned_factor
                       (split_ds_admin2 ds_admin2 ds_admin1).1
                       (split_ds_admin1 ds_admin2 ds_admin1).1).
Proof.
  intros Hc. rewrite ids_aligned_factor, ids_admin1_with_parent.
  apply elem_of_elements, with_parent_parents. by apply list_elem_of_fmap_2.
Qed.

Lemma NoDup_with_parent (ds_admin2 : list (child D)) (ds_admin1 : list (row D)) :
  NoDup (ids (child_row <$> ds_admin2)) →
  NoDup (ids (child_row <$> (split_ds_admin2 ds_admin2 ds_admin1).1)).
Proof.
  unfold ids. intros Hnd. eapply sublist_NoDup; [done|].
  apply fmap_sublist, fmap_sublist. simpl. apply sublist_filter.
Qed.

(** *** Steps 5 to 10 *)

(** The with-parent partition has a row exactly when some fine row has
    its parent among the labels of the coarse table. *)
Lemma with_parent_nonempty (ds_admin2 : list (child D)) (ds_admin1 : list (row D)) :
  (split_ds_admin2 ds_admin2 ds_admin1).1 ≠ [] ↔
  ∃ c, c ∈ ds_admin2 ∧ parent_id c ∈ ids ds_admin1.
Proof.
  split.
  - intros Hne.
    destruct ((split_ds_admin2 ds_admin2 ds_admin1).1) as [|c l] eqn:Hwp; [done|].
    exists c. apply elem_of_with_parent. rewrite Hwp. left.
  - intros (c & Hc) Hnil. apply elem_of_with_parent in Hc.
    rewrite Hnil in Hc. by apply elem_of_nil in Hc.
Qed.

Lemma with_parent_empty (ds_admin2 : list (child D)) (ds_admin1 : list (row D)) :
  (split_ds_admin2 ds_admin2 ds_admin1).1 = [] ↔
  ∀ c, c ∈ ds_admin2 → parent_id c ∉ ids ds_admin1.
Proof.
  split.
  - intros Hnil c Hc Hp.
    assert (c ∈ (split_ds_admin2 ds_admin2 ds_admin1).1) as Hin
      by by apply elem_of_with_parent.
    rewrite Hnil in Hin. by apply elem_of_nil in Hin.
  - intros Hall.
    destruct ((split_ds_admin2 ds_admin2 ds_admin1).1) as [|c l] eqn:Hwp; [done|].
    assert (c ∈ (split_ds_admin2 ds_admin2 ds_admin1).1) as Hin by (rewrite Hwp; left).
    apply elem_of_with_parent in Hin as [Hc Hp]. by destruct (Hall c Hc).
Qed.

Lemma admin1_with_parent_has_children
    (ds_admin2 : list (child D)) (ds_admin1 : list (row D)) r :
  r ∈ (split_ds_admin1 ds_admin2 ds_admin1).1 →
  location_id r ∈ parent_id <$> (split_ds_admin2 ds_admin2 ds_admin1).1.
Proof.
  intros Hr. apply with_parent_parents, elem_of_elements.
  rewrite <-ids_admin1_with_parent. by apply list_elem_of_fmap_2.
Qed.

(** A row in either restricted table means the with-parent partition
    has rows. *)
Lemma with_parent_inhabited (ds_admin2 : list (child D)) (ds_admin1 : list (row D)) c :
  c ∈ (split_ds_admin2 ds_admin2 ds_admin1).1 →
  (split_ds_admin2 ds_admin2 ds_admin1).1 ≠ [].
Proof. intros Hc Hnil. rewrite Hnil in Hc. by apply elem_of_nil in Hc. Qed.

Lemma admin1_with_parent_inhabited (ds_admin2 : list (child D)) (ds_admin1 : list (row D)) r :
  r ∈ (split_ds_admin1 ds_admin2 ds_admin1).1 →
  (split_ds_admin2 ds_admin2 ds_admin1).1 ≠ [].
Proof.
  intros (c & _ & Hc)%admin1_with_parent_has_children%list_elem_of_fmap.
  by eapply with_parent_inhabited.
Qed.

(** With an empty with-parent partition step 6 raises. *)
Lemma raked_partition_empty (ds_admin2 : list (child D)) (ds_admin1 : list (row D)) :
  (split_ds_admin2 ds_admin2 ds_admin1).1 = [] →
  raked_partition ds_admin2 ds_admin1 = inl (ValueError "parent_id must not be empty").
Proof.
  unfold raked_partition.
  destruct (split_ds_admin2 ds_admin2 ds_admin1) as [wp wo].
  destruct (split_ds_admin1 ds_admin2 ds_admin1) as [a1 a1'].
  cbn [fst]. by intros ->.
Qed.

(** With a row in it steps 5 to 8 go through; on a fine table with
    distinct labels every with-parent row leaves them multiplied by the
    factor of its parent. *)
Lemma raked_partition_total (ds_admin2 : list (child D)) (ds_admin1 : list (row D)) :
  (split_ds_admin2 ds_admin2 ds_admin1).1 ≠ [] →
  ∃ raked_values,
    raked_partition ds_admin2 ds_admin1 =
      inr (build_raked_dataset (split_ds_admin2 ds_admin2 ds_admin1).1 raked_values).
Proof.
  intros Hne. unfold raked_partition.
  pose proof (with_parent_has_factor ds_admin2 ds_admin1) as Hf.
  destruct (split_ds_admin2 ds_admin2 ds_admin1) as [wp wo].
  destruct (split_ds_admin1 ds_admin2 ds_admin1) as [a1 a1'].
  cbn [fst] in *.
  rewrite sum_and_align_admin2_totals_inr by done.
  rewrite broadcast_factor_to_admin2_rows by done. eauto.
Qed.

Lemma raked_partition_rows (ds_admin2 : list (child D)) (ds_admin1 : list (row D)) :
  NoDup (ids (child_row <$> ds_admin2)) →
  (split_ds_admin2 ds_admin2 ds_admin1).1 ≠ [] →
  raked_partition ds_admin2 ds_admin1 =
    inr ((λ c, Child (apply_factor
                         (aligned_factor
                            (split_ds_admin2 ds_admin2 ds_admin1).1
                            (split_ds_admin1 ds_admin2 ds_admin1).1) c)
                      (parent_id c))
            <$> (split_ds_admin2 ds_admin2 ds_admin1).1).
Proof.
  intros Hnd Hne. unfold raked_partition.
  pose proof (with_parent_has_factor ds_admin2 ds_admin1) as Hf.
  pose proof (NoDup_with_parent ds_admin2 ds_admin1 Hnd) as Hndw.
  destruct (split_ds_admin2 ds_admin2 ds_admin1) as [wp wo].
  destruct (split_ds_admin1 ds_admin2 ds_admin1) as [a1 a1'].
  cbn [fst] in *.
  rewrite sum_and_align_admin2_totals_inr by done.
  rewrite broadcast_factor_to_admin2_rows by done.
  by rewrite build_raked_dataset_rows.
Qed.

Lemma rake_raked_partition (ds_admin2 : list (child D)) (ds_admin1 : list (row D)) :
  rake ds_admin2 ds_admin1 =
    match raked_partition ds_admin2 ds_admin1 with
    | inl e => inl e
    | inr ds_admin2_raked =>
        inr ((child_row <$> ds_admin2_raked)
               ++ (child_row <$> (split_ds_admin2 ds_admin2 ds_admin1).2))
    end.
Proof.
  unfold rake. destruct (split_ds_admin2 ds_admin2 ds_admin1) as [wp wo].
  destruct (raked_partition ds_admin2 ds_admin1); [done|].
  unfold drop_data_variables, merge_raked_and_unraked_admin2_dask.
  by rewrite fmap_app.
Qed.

Lemma rake_empty (ds_admin2 : list (child D)) (ds_admin1 : list (row D)) :
  (split_ds_admin2 ds_admin2 ds_admin1).1 = [] →
  rake ds_admin2 ds_admin1 = inl (ValueError "parent_id must not be empty").
Proof. intros Hnil. by rewrite rake_raked_partition, raked_partition_empty. Qed.

Lemma rake_rows (ds_admin2 : list (child D)) (ds_admin1 : list (row D)) :
  NoDup (ids (child_row <$> ds_admin2)) →
  (split_ds_admin2 ds_admin2 ds_admin1).1 ≠ [] →
  rake ds_admin2 ds_admin1 =
    inr ((apply_factor (aligned_factor
                           (split_ds_admin2 ds_admin2 ds_admin1).1
                           (split_ds_admin1 ds_admin2 ds_admin1).1)
             <$> (split_ds_admin2 ds_admin2 ds_admin1).1)
          ++ (child_row <$> (split_ds_admin2 ds_admin2 ds_admin1).2)).
Proof.
  intros Hnd Hne. rewrite rake_raked_partition, raked_partition_rows by done.
  by rewrite <-list_fmap_compose.
Qed.

(** Steps 5 to 10 return a table exactly when the with-parent partition
    has a row. *)
Lemma rake_returns (ds_admin2 : list (child D)) (ds_admin1 : list (row D)) :
  (split_ds_admin2 ds_admin2 ds_admin1).1 ≠ [] ↔
  ∃ merged, rake ds_admin2 ds_admin1 = inr merged.
Proof.
  split.
  - intros Hne. rewrite rake_raked_partition.
    destruct (raked_partition_total ds_admin2 ds_admin1 Hne) as [rv ->]. eauto.
  - intros [merged Hm] Hnil. by rewrite rake_empty in Hm.
Qed.

(** The one exception of steps 5 to 10. *)
Lemma rake_inl (ds_admin2 : list (child D)) (ds_admin1 : list (row D)) e :
  rake ds_admin2 ds_admin1 = inl e →
  e = ValueError "parent_id must not be empty" ∧
  ∀ c, c ∈ ds_admin2 → parent_id c ∉ ids ds_admin1.
Proof.
  intros He.
  destruct (decide ((split_ds_admin2 ds_admin2 ds_admin1).1 = [])) as [Hnil|Hne].
  - rewrite rake_empty in He by done. split; [by injection He as <-|].
    by apply with_parent_empty.
  - apply rake_returns in Hne as [merged Hm]. by rewrite Hm in He.
Qed.

Lemma NoDup_same_label (l : list (child D)) (a b : child D) :
  NoDup (ids (child_row <$> l)) → a ∈ l → b ∈ l →
  location_id a = location_id b → a = b.
Proof.
  unfold ids. rewrite <-list_fmap_compose. intros Hnd Ha Hb Hab.
  pose proof (loc_NoDup _ l a Hnd Ha) as H1.
  pose proof (loc_NoDup _ l b Hnd Hb) as H2.
  simpl in *. rewrite Hab in H1. congruence.
Qed.

Lemma cell_rake_with_parent (ds_admin2 : list (child D)) (ds_admin1 : list (row D))
    (merged : list (row D)) c :
  NoDup (ids (child_row <$> ds_admin2)) →
  rake ds_admin2 ds_admin1 = inr merged →
  c ∈ (split_ds_admin2 ds_admin2 ds_admin1).1 →
  cell merged (location_id c) =
    Some (value (apply_factor (aligned_factor
                                 (split_ds_admin2 ds_admin2 ds_admin1).1
                                 (split_ds_admin1 ds_admin2 ds_admin1).1) c)).
Proof.
  intros Hnd Hrake Hc.
  rewrite rake_rows in Hrake by (done || by eapply with_parent_inhabited).
  apply (inj inr) in Hrake as <-. unfold cell. rewrite loc_app.
  rewrite (loc_fmap (λ c : child D, location_id c)) by done.
  rewrite (loc_NoDup (λ c : child D, location_id c)); [done| |done].
  pose proof (NoDup_with_parent ds_admin2 ds_admin1 Hnd) as Hw.
  unfold ids in Hw. by rewrite <-list_fmap_compose in Hw.
Qed.

Lemma cell_rake_without_parent (ds_admin2 : list (child D)) (ds_admin1 : list (row D))
    (merged : list (row D)) c :
  NoDup (ids (child_row <$> ds_admin2)) →
  rake ds_admin2 ds_admin1 = inr merged →
  c ∈ (split_ds_admin2 ds_admin2 ds_admin1).2 →
  cell merged (location_id c) = Some (value c).
Proof.
  intros Hnd Hrake Hc.
  assert ((split_ds_admin2 ds_admin2 ds_admin1).1 ≠ []) as Hne
    by (apply rake_returns; eauto).
  rewrite rake_rows in Hrake by done.
  apply (inj inr) in Hrake as <-. unfold cell. rewrite loc_app.
  rewrite !(loc_fmap (λ c : child D, location_id c) location_id) by done.
  assert (loc (λ c : child D, location_id c) (location_id c)
              (split_ds_admin2 ds_admin2 ds_admin1).1 = None) as ->.
  { apply loc_None. intros (c' & Heq & Hin)%list_elem_of_fmap.
    apply elem_of_with_parent in Hin as [Hin Hp].
    apply elem_of_without_parent in Hc as [Hc Hnp].
    assert (c = c') as -> by by eapply NoDup_same_label.
    done. }
  cbn [fmap option_fmap option_map].
  rewrite (loc_NoDup (λ c : child D, location_id c)); [done| |done].
  unfold ids in Hnd. rewrite <-list_fmap_compose in Hnd.
  eapply sublist_NoDup; [done|]. apply fmap_sublist. simpl. apply sublist_filter.
Qed.


(** The factor of a row of the restricted coarse table, with the
    aggregate spelled out. *)
Lemma restricted_factor (ds_admin2 : list (child D)) (ds_admin1 : list (row D)) r :
  r ∈ (split_ds_admin1 ds_admin2 ds_admin1).1 →
  sum_and_align_admin2_totals
    (split_ds_admin2 ds_admin2 ds_admin1).1
    (split_ds_admin1 ds_admin2 ds_admin1).1
  = inr (aligned_factor (split_ds_admin2 ds_admin2 ds_admin1).1
                        (split_ds_admin1 ds_admin2 ds_admin1).1) ∧
  ∃ f, cell (aligned_factor
               (split_ds_admin2 ds_admin2 ds_admin1).1
               (split_ds_admin1 ds_admin2 ds_admin1).1) (location_id r) = Some f ∧
       ∀ d, f d = factor_cell
                    (group_sum (split_ds_admin2 ds_admin2 ds_admin1).1 (location_id r) d)
                    (value r d).
Proof.
  intros Hr. split.
  - apply sum_and_align_admin2_totals_inr. by eapply admin1_with_parent_inhabited.
  - apply cell_aligned_factor.
    + apply NoDup_ids_admin1_with_parent.
    + done.
    + by apply admin1_with_parent_has_children.
Qed.


Lemma factor_at_cell (factor : list (row D)) p (f : D → float) d :
  cell factor p = Some f → factor_at factor p d = f d.
Proof.
  unfold cell, factor_at. destruct (loc location_id p factor); [|done].
  by intros [= <-].
Qed.

(** C3.  For a with-parent row steps 5 to 10 return a merged output, in
    which the row keeps its value in every cell where the children of
    its parent sum to 0 or the parent's coarse value is 0: the factor
    applied there is 1. *)
Theorem identity_on_degenerate_groups
    (ds_admin2 : list (child D)) (ds_admin1 : list (row D)) :
  NoDup (ids (child_row <$> ds_admin2)) →
  ∀ c r d,
    c ∈ (split_ds_admin2 ds_admin2 ds_admin1).1 →
    r ∈ (split_ds_admin1 ds_admin2 ds_admin1).1 →
    location_id r = parent_id c →
    is_zero (group_sum (split_ds_admin2 ds_admin2 ds_admin1).1 (parent_id c) d) = true
      ∨ is_zero (value r d) = true →
    ∃ factor merged,
      sum_and_align_admin2_totals
        (split_ds_admin2 ds_admin2 ds_admin1).1
        (split_ds_admin1 ds_admin2 ds_admin1).1 = inr factor ∧
      rake ds_admin2 ds_admin1 = inr merged ∧
      factor_at factor (parent_id c) d = one ∧
      ∃ v, cell merged (location_id c) = Some v ∧ v d = value c d.
Proof.
  intros Hnd c r d Hc Hr Hrc Hdeg.
  destruct (restricted_factor ds_admin2 ds_admin1 r Hr) as (Hfactor & f & Hf & Hfd).
  assert ((split_ds_admin2 ds_admin2 ds_admin1).1 ≠ []) as Hne
    by by eapply with_parent_inhabited.
  eexists _, _. split; [exact Hfactor|]. split; [by apply rake_rows|].
  rewrite Hrc in Hf, Hfd.
  assert (f d = one) as Hone.
  { rewrite Hfd, factor_cell_cases. destruct Hdeg as [->| ->]; [done|].
    by rewrite orb_true_r. }
  split; [by rewrite (factor_at_cell _ _ f)|].
  eexists. split.
  - eapply cell_rake_with_parent; [done|by apply rake_rows|done].
  - simpl. by rewrite (factor_at_cell _ _ f), Hone, fmul_one_r.
Qed.


(** C4.  Entity-set preservation.  When some fine row has its parent in
    the coarse table, the labels of the merged output are those of the
    fine table that entered the split, each as often.  When none has,
    steps 5 to 10 raise at the group sum and there is no merged output. *)
Theorem entity_set_preservation (ds_admin2 : list (child D)) (ds_admin1 : list (row D)) :
  ((split_ds_admin2 ds_admin2 ds_admin1).1 ≠ [] →
   ∃ merged,
     rake ds_admin2 ds_admin1 = inr merged ∧
     ids merged ≡ₚ ids (child_row <$> ds_admin2) ∧
     (list_to_set (ids merged) : gset Z) = list_to_set (ids (child_row <$> ds_admin2))) ∧
  ((split_ds_admin2 ds_admin2 ds_admin1).1 = [] →
   rake ds_admin2 ds_admin1 = inl (ValueError "parent_id must not be empty")).
Proof.
  split; [|apply rake_empty].
  intros Hne. rewrite rake_raked_partition.
  destruct (raked_partition_total ds_admin2 ds_admin1 Hne) as [rv ->].
  eexists. split; [done|].
  assert (ids ((child_row <$> build_raked_dataset (split_ds_admin2 ds_admin2 ds_admin1).1 rv)
                 ++ (child_row <$> (split_ds_admin2 ds_admin2 ds_admin1).2))
          ≡ₚ ids (child_row <$> ds_admin2)) as Hp.
  { unfold ids at 1. rewrite fmap_app.
    fold (ids (child_row <$> build_raked_dataset (split_ds_admin2 ds_admin2 ds_admin1).1 rv)).
    rewrite build_raked_dataset_ids.
    unfold ids. rewrite <-fmap_app, <-fmap_app.
    apply fmap_Permutation, fmap_Permutation.
    simpl. apply filter_app_complement. }
  split; [done|]. apply set_eq. intros x. by rewrite !elem_of_list_to_set, Hp.
Qed.

(** C7.  No-parent passthrough.  The without-parent partition is the
    fine table filtered and nothing else.  When some fine row has its
    parent in the coarse table, the merged output is the raked partition
    followed by the without-parent partition as it was split off; a fine
    row whose parent is no label of the coarse table is a row of the
    output, and on a fine table with distinct labels its label leads to
    its own cells.  When no fine row has, steps 5 to 10 raise at the
    group sum, and no row reaches an output. *)
Theorem no_parent_passthrough (ds_admin2 : list (child D)) (ds_admin1 : list (row D)) :
  (split_ds_admin2 ds_admin2 ds_admin1).2
    = filter (λ c, parent_id c ∉ ids ds_admin1) ds_admin2 ∧
  ((split_ds_admin2 ds_admin2 ds_admin1).1 ≠ [] →
   ∃ ds_admin2_raked merged,
     raked_partition ds_admin2 ds_admin1 = inr ds_admin2_raked ∧
     rake ds_admin2 ds_admin1 = inr merged ∧
     merged = (child_row <$> ds_admin2_raked)
                ++ (child_row <$> (split_ds_admin2 ds_admin2 ds_admin1).2) ∧
     ∀ c, c ∈ ds_admin2 → parent_id c ∉ ids ds_admin1 →
          child_row c ∈ merged ∧
          (NoDup (ids (child_row <$> ds_admin2)) →
           cell merged (location_id c) = Some (value c))) ∧
  ((∀ c, c ∈ ds_admin2 → parent_id c ∉ ids ds_admin1) →
   rake ds_admin2 ds_admin1 = inl (ValueError "parent_id must not be empty")).
Proof.
  split; [|split].
  - simpl. apply filter_ext_elem_of. intros c Hc.
    rewrite elem_of_elements, elem_of_common_parents. split.
    + intros Hn Hp. apply Hn. split; [|done]. by apply list_elem_of_fmap_2.
    + by intros Hn [_ ?].
  - intros Hne.
    destruct (raked_partition_total ds_admin2 ds_admin1 Hne) as [rv Hrv].
    assert (rake ds_admin2 ds_admin1 =
              inr ((child_row <$> build_raked_dataset
                                     (split_ds_admin2 ds_admin2 ds_admin1).1 rv)
                      ++ (child_row <$> (split_ds_admin2 ds_admin2 ds_admin1).2))) as Hrake
      by by rewrite rake_raked_partition, Hrv.
    eexists _, _. split; [exact Hrv|]. split; [exact Hrake|]. split; [done|].
    intros c Hc Hp.
    assert (c ∈ (split_ds_admin2 ds_admin2 ds_admin1).2) as Hwo
      by by apply elem_of_without_parent.
    split.
    + apply elem_of_app. right. by apply list_elem_of_fmap_2.
    + intros Hnd. by eapply cell_rake_without_parent.
  - intros Hall. by apply rake_empty, with_parent_empty.
Qed.

End Raking.

(** *** Conservation *)

Section Conservation.
Local Existing Instance exact.
Context {D : Type}.



End Conservation.


(** Nor within any tolerance: two children whose sum is beyond the
    largest number get the factor 0 under a parent at 1, and sum to 0
    after raking. *)
Lemma conservation_float64_overflow :
  ∃ r ds_admin2_raked,
    r ∈ (split_ds_admin1 f64_admin2_huge f64_admin1_one).1 ∧
    is_zero (value r tt) = false ∧
    is_zero (group_sum (split_ds_admin2 f64_admin2_huge f64_admin1_one).1
               (location_id r) tt) = false ∧
    raked_partition f64_admin2_huge f64_admin1_one = inr ds_admin2_raked ∧
    value r tt = 1%float ∧
    group_sum ds_admin2_raked (location_id r) tt = 0%float.
Proof.
  exists (Row 1 (cell64 1)). eexists.
  split; [by apply list_elem_of_here|].
  split; [by vm_compute|]. split; [by vm_compute|].
  split; [by vm_compute|]. split; [done|]. by vm_compute.
Qed.


(** ** Loading, saving and the launcher *)

Section Runs.
Context `{Arith} {D : Type} (off_axis : by_draw D → list (child D) → exn + list (row D)).
Implicit Types (w : world D).

Lemma io_bind_inl {A B} (k : A → io D B) (m : io D A) w t e :
  m w = (t, inl e) → (m ≫= k) w = (t, inl e).
Proof. unfold mbind, io_mbind, io_bind. by intros ->. Qed.

Lemma io_bind_ext {A B} (k : A → io D B) (m : io D A) w w' :
  m w' = m w → (∀ a, k a w' = k a w) → (m ≫= k) w' = (m ≫= k) w.
Proof.
  unfold mbind, io_mbind, io_bind. intros -> Hk.
  destruct (m w) as [t [e|a]]; [done|]. by rewrite Hk.
Qed.

(** *** Configuration errors *)

Lemma get_forcasted_ds_bad_combination w cause scenario measure draw :
  scenario_and_measure_map !! (scenario, measure) = None →
  get_forcasted_ds cause scenario measure draw w =
    ([], inl (ValueError "Invalid scenario ID and measure combination.")).
Proof.
  intros Hc. unfold get_forcasted_ds.
  by rewrite bool_decide_eq_true_2.
Qed.

Lemma get_forcasted_ds_bad_cause w cause scenario measure draw :
  is_Some (scenario_and_measure_map !! (scenario, measure)) →
  CAUSE_MAP !! cause = None →
  get_forcasted_ds cause scenario measure draw w = ([], inl KeyError).
Proof.
  intros [name Hname] Hc. unfold get_forcasted_ds.
  rewrite bool_decide_eq_false_2 by by rewrite Hname.
  unfold dict_get. rewrite Hname, Hc. reflexivity.
Qed.

(** On its own, [get_predicted_ds] rejects a scenario or a measure it
    does not know with the [KeyError] of its dict lookups, and meets an
    unknown cause with a printed warning, after which it fails on the
    unassigned [draw_folder]; in each case before it looks at the file
    system. *)
Lemma get_predicted_ds_bad_scenario w cause scenario measure draw :
  SCENARIO_MAP !! scenario = None →
  get_predicted_ds cause scenario measure draw w = ([], inl KeyError).
Proof. intros Hs. unfold get_predicted_ds, dict_get. by rewrite Hs. Qed.

Lemma get_predicted_ds_bad_measure w cause scenario measure draw :
  is_Some (SCENARIO_MAP !! scenario) → MEASURE_MAP !! measure = None →
  get_predicted_ds cause scenario measure draw w = ([], inl KeyError).
Proof. intros [s Hs] Hm. unfold get_predicted_ds, dict_get. by rewrite Hs, Hm. Qed.

Lemma get_predicted_ds_unknown_cause w cause scenario measure draw :
  is_Some (SCENARIO_MAP !! scenario) → is_Some (MEASURE_MAP !! measure) →
  cause ≠ "malaria" → cause ≠ "dengue" →
  get_predicted_ds cause scenario measure draw w =
    ([EvPrint ("Unknown cause: " +:+ cause +:+ ", only dengue or malaria available.")],
     inl (UnboundLocalError "draw_folder")).
Proof.
  intros [s Hs] [m Hm] Hm1 Hm2. unfold get_predicted_ds, dict_get.
  rewrite Hs, Hm. unfold mbind, io_mbind, io_bind, mret, io_mret, io_ret. simpl.
  by rewrite !decide_False by done.
Qed.

(** The lookup table of the forecasts has a row for every scenario of
    [SCENARIO_MAP] with every measure of [MEASURE_MAP]. *)
Lemma scenario_and_measure_map_None scenario measure :
  scenario_and_measure_map !! (scenario, measure) = None →
  SCENARIO_MAP !! scenario = None ∨ MEASURE_MAP !! measure = None.
Proof.
  intros Hc.
  destruct (SCENARIO_MAP !! scenario) as [s|] eqn:Hs; [|by left].
  destruct (MEASURE_MAP !! measure) as [m|] eqn:Hm; [|by right].
  apply elem_of_list_to_map_2 in Hs. apply elem_of_list_to_map_2 in Hm.
  rewrite !elem_of_cons, elem_of_nil in Hs.
  rewrite !elem_of_cons, elem_of_nil in Hm.
  destruct Hs as [[= -> ->]|[[= -> ->]|[[= -> ->]|[]]]];
    destruct Hm as [[= -> ->]|[[= -> ->]|[[= -> ->]|[[= -> ->]|[]]]]];
    vm_compute in Hc; discriminate.
Qed.

Lemma CAUSE_MAP_None cause :
  CAUSE_MAP !! cause = None → cause ≠ "malaria" ∧ cause ≠ "dengue".
Proof. intros Hc. split; intros ->; vm_compute in Hc; discriminate. Qed.

Lemma get_predicted_ds_rejects w cause scenario measure draw :
  scenario_and_measure_map !! (scenario, measure) = None ∨ CAUSE_MAP !! cause = None →
  ∃ t e, get_predicted_ds cause scenario measure draw w = (t, inl e) ∧
         Forall (λ ev, is_fs_event ev = false) t.
Proof.
  intros Hbad.
  destruct (SCENARIO_MAP !! scenario) as [s|] eqn:Hs;
    [|eexists _, _; split; [by apply get_predicted_ds_bad_scenario|done]].
  destruct (MEASURE_MAP !! measure) as [m|] eqn:Hm;
    [|eexists _, _; split; [by apply get_predicted_ds_bad_measure|done]].
  destruct Hbad as [[?|?]%scenario_and_measure_map_None|[? ?]%CAUSE_MAP_None];
    [congruence|congruence|].
  eexists _, _. split; [by apply get_predicted_ds_unknown_cause|].
  by repeat constructor.
Qed.

(** C8.  A run asked for a (scenario, measure) pair outside
    [scenario_and_measure_map], or for a cause outside [CAUSE_MAP],
    ends in an exception raised by [get_forcasted_ds] with an empty
    trace: nothing was looked up on disk, opened, written or printed,
    and no dataset is returned.  [get_predicted_ds], which the run does
    not reach then, rejects the same requests without touching the file
    system. *)
Theorem configuration_errors_fail_fast w cause scenario measure draw :
  scenario_and_measure_map !! (scenario, measure) = None ∨ CAUSE_MAP !! cause = None →
  ∃ e,
    get_forcasted_ds cause scenario measure draw w = ([], inl e) ∧
    main_raking_function off_axis cause scenario measure draw w = ([], inl e) ∧
    e = (if bool_decide (scenario_and_measure_map !! (scenario, measure) = None)
         then ValueError "Invalid scenario ID and measure combination."
         else KeyError) ∧
    ∃ t' e',
      get_predicted_ds cause scenario measure draw w = (t', inl e') ∧
      Forall (λ ev, is_fs_event ev = false) t'.
Proof.
  intros Hbad.
  assert (get_forcasted_ds cause scenario measure draw w =
            ([], inl (if bool_decide (scenario_and_measure_map !! (scenario, measure) = None)
                      then ValueError "Invalid scenario ID and measure combination."
                      else KeyError))) as Hget.
  { case_bool_decide as Hc.
    - by apply get_forcasted_ds_bad_combination.
    - destruct Hbad as [?|Hcause]; [done|].
      apply get_forcasted_ds_bad_cause; [|done].
      by apply not_eq_None_Some. }
  eexists. split; [exact Hget|]. split; [|split; [done|]].
  - unfold main_raking_function, transpose, subset_admin1_to_admin2_dims. by apply io_bind_inl.
  - by apply get_predicted_ds_rejects.
Qed.

(** *** The requested draw *)

Lemma get_forcasted_ds_ok w cause scenario measure draw dataset_name cause_file :
  scenario_and_measure_map !! (scenario, measure) = Some dataset_name →
  CAUSE_MAP !! cause = Some cause_file →
  fs_exists w (forecast_root // measure // dataset_name // cause_file) = true →
  get_forcasted_ds cause scenario measure draw w =
    ([EvExists (forecast_root // measure // dataset_name // cause_file);
      EvOpen (forecast_root // measure // dataset_name // cause_file)],
     inr (where_draw draw
            (forecast_nc w (forecast_root // measure // dataset_name // cause_file)))).
Proof.
  intros Hname Hcause Hex. unfold get_forcasted_ds.
  rewrite bool_decide_eq_false_2 by by rewrite Hname.
  unfold dict_get. rewrite Hname, Hcause.
  unfold mbind, io_mbind, io_bind, mret, io_mret, io_ret, path_exists, open_dataset.
  simpl. by rewrite Hex; simpl; rewrite Hex.
Qed.

(** Computations that do not look at the forecast files. *)

Lemma dict_get_ext `{Countable K} {V} (m : gmap K V) (k : K) w w' :
  dict_get (D:=D) m k w' = dict_get m k w.
Proof. unfold dict_get. by destruct (m !! k). Qed.

Lemma of_option_ext {A} (e : exn) (o : option A) w w' :
  of_option (D:=D) e o w' = of_option e o w.
Proof. by destruct o. Qed.

Lemma path_exists_ext p w w' :
  fs_exists w = fs_exists w' → path_exists p w' = path_exists p w.
Proof. unfold path_exists. by intros ->. Qed.

Lemma open_dataset_ext {A} (content : world D → string → A) p w w' :
  fs_exists w = fs_exists w' → content w p = content w' p →
  open_dataset content p w' = open_dataset content p w.
Proof. unfold open_dataset. by intros -> ->. Qed.

Lemma get_forcasted_ds_other_draws w w' cause scenario measure draw :
  same_but_other_draws draw w w' →
  get_forcasted_ds cause scenario measure draw w' =
    get_forcasted_ds cause scenario measure draw w.
Proof.
  intros (Hex & _ & _ & _ & Hf). unfold get_forcasted_ds.
  case_bool_decide; [done|].
  apply io_bind_ext; [apply dict_get_ext|intros name].
  apply io_bind_ext; [apply dict_get_ext|intros file].
  apply io_bind_ext; [by apply path_exists_ext|intros present].
  destruct present; cbn [negb]; [|done].
  unfold mbind, io_mbind, io_bind, open_dataset. rewrite Hex.
  destruct (fs_exists w' _); [|done].
  unfold mret, io_mret, io_ret. by rewrite Hf.
Qed.

Lemma get_predicted_ds_other_draws w w' cause scenario measure draw :
  same_but_other_draws draw w w' →
  get_predicted_ds cause scenario measure draw w' =
    get_predicted_ds cause scenario measure draw w.
Proof.
  intros (Hex & _ & Hp & _ & _). unfold get_predicted_ds.
  apply io_bind_ext; [apply dict_get_ext|intros scenario_name].
  apply io_bind_ext; [apply dict_get_ext|intros measure_name].
  apply io_bind_ext; [by repeat case_decide|intros folder].
  apply io_bind_ext; [apply of_option_ext|intros folder'].
  apply io_bind_ext; [by apply path_exists_ext|intros present].
  destruct present; cbn [negb]; [|done].
  apply open_dataset_ext; [done|by rewrite Hp].
Qed.

Lemma load_in_hierarchy_dataset_other_draws draw w w' :
  same_but_other_draws draw w w' →
  load_in_hierarchy_dataset w' = load_in_hierarchy_dataset w.
Proof.
  intros (Hex & _ & _ & Hh & _). unfold load_in_hierarchy_dataset.
  apply io_bind_ext; [|done]. apply open_dataset_ext; [done|by rewrite Hh].
Qed.

Lemma sys_call_ext e w w' :
  fs_refuses w = fs_refuses w' → sys_call e w' = sys_call e w.
Proof. unfold sys_call. by intros ->. Qed.

(** The save looks at nothing in the world but what the operating
    system refuses. *)
Lemma save_raked_dataset_optimized_ext w w' cause scenario measure draw merged_ds :
  fs_refuses w = fs_refuses w' →
  save_raked_dataset_optimized cause scenario measure draw merged_ds w' =
    save_raked_dataset_optimized cause scenario measure draw merged_ds w.
Proof.
  intros Hr. unfold save_raked_dataset_optimized.
  apply io_bind_ext; [apply dict_get_ext|intros scenario_name].
  apply io_bind_ext; [apply dict_get_ext|intros measure_name].
  repeat (apply io_bind_ext; [by apply sys_call_ext|intros []]).
  done.
Qed.

Lemma main_raking_function_other_draws w w' cause scenario measure draw :
  same_but_other_draws draw w w' →
  main_raking_function off_axis cause scenario measure draw w' =
    main_raking_function off_axis cause scenario measure draw w.
Proof.
  intros Hw. unfold main_raking_function, transpose, subset_admin1_to_admin2_dims.
  apply io_bind_ext; [by apply get_forcasted_ds_other_draws|intros ds_admin1].
  apply io_bind_ext; [by apply get_predicted_ds_other_draws|intros ds_admin2].
  apply io_bind_ext; [by eapply load_in_hierarchy_dataset_other_draws|intros hierarchy].
  apply io_bind_ext; [done|intros merged_ds].
  apply io_bind_ext; [|done].
  apply save_raked_dataset_optimized_ext. by destruct Hw as (_ & ? & _).
Qed.

(** C10.  For a combination of the lookup tables whose forecast file
    exists, [get_forcasted_ds] returns the slices of that file labelled
    with the requested draw and no other; and the whole run, trace and
    merged table alike, is the same in any world that differs only in
    the other slices of the forecast files. *)
Theorem forecast_restricted_to_requested_draw
    w cause scenario measure draw dataset_name cause_file :
  scenario_and_measure_map !! (scenario, measure) = Some dataset_name →
  CAUSE_MAP !! cause = Some cause_file →
  fs_exists w (forecast_root // measure // dataset_name // cause_file) = true →
  ∃ t ds_admin1,
    get_forcasted_ds cause scenario measure draw w = (t, inr ds_admin1) ∧
    ds_admin1 = filter (λ s, s.1 = draw)
                  (forecast_nc w (forecast_root // measure // dataset_name // cause_file)) ∧
    Forall (λ s, s.1 = draw) ds_admin1 ∧
    ∀ w', same_but_other_draws draw w w' →
          get_forcasted_ds cause scenario measure draw w' = (t, inr ds_admin1) ∧
          main_raking_function off_axis cause scenario measure draw w' =
            main_raking_function off_axis cause scenario measure draw w.
Proof.
  intros Hname Hcause Hex. eexists _, _.
  split; [by apply get_forcasted_ds_ok|]. split; [done|]. split.
  - apply Forall_forall. by intros s [? _]%list_elem_of_filter.
  - intros w' Hw. split; [|by apply main_raking_function_other_draws].
    rewrite (get_forcasted_ds_other_draws w w') by done.
    by apply get_forcasted_ds_ok.
Qed.

End Runs.

Section RunsOutput.
Context `{Arith} {D : Type} (off_axis : by_draw D → list (child D) → exn + list (row D)).
Implicit Types (w : world D).

Lemma io_bind_inr_inv {A B} (k : A → io D B) (m : io D A) w t b :
  (m ≫= k) w = (t, inr b) →
  ∃ t1 t2 a, m w = (t1, inr a) ∧ k a w = (t2, inr b) ∧ t = t1 ++ t2.
Proof.
  unfold mbind, io_mbind, io_bind.
  destruct (m w) as [t1 [e|a]]; [done|].
  destruct (k a w) as [t2 r] eqn:Hk. intros [= <- ->]. by exists t1, t2, a.
Qed.

(** A run that returns a table returns what steps 5 to 10 make of the
    slices of the requested draw and of the reconciled prediction with
    the hierarchy attached. *)
Lemma main_raking_function_inr w cause scenario measure draw t merged_ds :
  main_raking_function off_axis cause scenario measure draw w = (t, inr merged_ds) →
  ∃ t1 t2 t3 slices predicted hierarchy,
    get_forcasted_ds cause scenario measure draw w = (t1, inr slices) ∧
    get_predicted_ds cause scenario measure draw w = (t2, inr predicted) ∧
    load_in_hierarchy_dataset w = (t3, inr hierarchy) ∧
    match slices with
    | [(_, ds_admin1)] =>
        rake (attach_hierarchy
                (subset_ds_to_admin2_locations hierarchy (impute_location_ids predicted))
                hierarchy)
             ds_admin1
    | _ =>
        off_axis slices
          (attach_hierarchy
             (subset_ds_to_admin2_locations hierarchy (impute_location_ids predicted))
             hierarchy)
    end = inr merged_ds.
Proof.
  unfold main_raking_function, transpose, subset_admin1_to_admin2_dims.
  intros (t1 & ? & slices & H1 & Hk & _)%io_bind_inr_inv.
  apply io_bind_inr_inv in Hk as (t2 & ? & predicted & H2 & Hk & _).
  apply io_bind_inr_inv in Hk as (t3 & ? & hierarchy & H3 & Hk & _).
  apply io_bind_inr_inv in Hk as (? & ? & merged & H5 & Hk & _).
  apply io_bind_inr_inv in Hk as (? & ? & [] & _ & H6 & _).
  injection H6 as _ <-.
  unfold of_result in H5. injection H5 as _ H5.
  by exists t1, t2, t3, slices, predicted, hierarchy.
Qed.

(** *** The launcher *)

Lemma MEASURE_MAP_save_lookup measure measure_name :
  MEASURE_MAP_save !! measure = Some measure_name →
  measure_name = if decide (measure = "death") then "mortality" else measure.
Proof.
  intros Hin%elem_of_list_to_map_2.
  rewrite !elem_of_cons, elem_of_nil in Hin.
  by destruct Hin as [[= -> ->]|[[= -> ->]|[[= -> ->]|[[= -> ->]|[]]]]].
Qed.

(** [check_if_path_draw_exists] looks at the very path that
    [save_raked_dataset_optimized] writes for the combination. *)
Lemma check_if_path_draw_exists_output_path w cause scenario measure draw p :
  output_path cause scenario measure draw = Some p →
  check_if_path_draw_exists cause scenario measure draw w =
    ([EvExists p], inr (fs_exists w p)).
Proof.
  unfold output_path, check_if_path_draw_exists, dict_get.
  destruct (SCENARIO_MAP !! scenario) as [scenario_name|]; [|done]. csimpl.
  destruct (MEASURE_MAP_save !! measure) as [measure_name|] eqn:Hm; [|done]. csimpl.
  apply MEASURE_MAP_save_lookup in Hm as ->. intros [= <-].
  unfold mbind, io_mbind, io_bind, mret, io_mret, io_ret, path_exists. simpl.
  by destruct (fs_exists w _).
Qed.

Lemma elem_of_tasks cause scenario measure draw :
  (cause, scenario, measure, draw) ∈ tasks ↔
  cause ∈ CAUSES ∧ scenario ∈ SCENARIOS ∧ measure ∈ MEASURES ∧ draw ∈ DRAWS.
Proof.
  unfold tasks. rewrite list_elem_of_bind. split.
  - intros (c & (s & (m & (d & Hd%list_elem_of_singleton & ?)%list_elem_of_bind
                       & ?)%list_elem_of_bind & ?)%list_elem_of_bind & ?).
    by injection Hd as -> -> -> ->.
  - intros (? & ? & ? & ?). exists cause. split; [|done].
    apply list_elem_of_bind. exists scenario. split; [|done].
    apply list_elem_of_bind. exists measure. split; [|done].
    apply list_elem_of_bind. exists draw. split; [|done].
    by apply list_elem_of_singleton.
Qed.

(** Whatever the file system holds, every combination of the cross
    product is a task; one whose output file exists, and for which
    [check_if_path_draw_exists] therefore answers [True], is no
    exception. *)
Lemma tasks_include_finished_combinations w cause scenario measure draw p :
  cause ∈ CAUSES → scenario ∈ SCENARIOS → measure ∈ MEASURES → draw ∈ DRAWS →
  output_path cause scenario measure draw = Some p →
  fs_exists w p = true →
  check_if_path_draw_exists cause scenario measure draw w = ([EvExists p], inr true) ∧
  (cause, scenario, measure, draw) ∈ tasks.
Proof.
  intros ? ? ? ? Hp Hex. split.
  - rewrite (check_if_path_draw_exists_output_path _ _ _ _ _ p) by done.
    by rewrite Hex.
  - by apply elem_of_tasks.
Qed.

End RunsOutput.

(** C9, as the launcher runs.  With the output of (malaria, 0, death, 0)
    on disk, [check_if_path_draw_exists] finds it at the path the run
    writes, and the combination is nevertheless one of the 2400 tasks
    added to the workflow. *)
Theorem launcher_submits_finished_combination :
  ∃ p,
    @output_path "malaria" 0 "death" 0 = Some p ∧
    fs_exists ex_world p = true ∧
    check_if_path_draw_exists "malaria" 0 "death" 0 ex_world = ([EvExists p], inr true) ∧
    ("malaria", 0, "death", 0) ∈ tasks ∧
    length tasks = 2400%nat.
Proof.
  eexists. split; [reflexivity|]. split; [reflexivity|].
  split; [|split].
  - by apply (tasks_include_finished_combinations ex_world "malaria" 0 "death" 0);
      first [apply (bool_decide_unpack _); by vm_compute | done].
  - apply elem_of_tasks. repeat split; apply (bool_decide_unpack _); by vm_compute.
  - by vm_compute.
Qed.

(** ** The run as a whole *)

Section WholeRun.
Context `{Arith} {D : Type} (off_axis : by_draw D → list (child D) → exn + list (row D)).
Implicit Types (w : world D).

Lemma sel_sublist {A} (key : A → Z) (labels : list Z) (ds : list A) :
  key <$> sel key labels ds `sublist_of` labels.
Proof.
  unfold sel. induction labels as [|k labels IH]; csimpl; [done|].
  destruct (loc key k ds) as [r|] eqn:Hr; csimpl.
  - apply loc_Some in Hr as [_ ->]. by apply sublist_skip.
  - by apply sublist_cons.
Qed.

Lemma NoDup_sorted (s : gset Z) : NoDup (sorted s).
Proof. unfold sorted. rewrite merge_sort_Permutation. apply NoDup_elements. Qed.

Lemma attach_hierarchy_rows (l1 : list (row D)) (l2 : list hrow) :
  child_row <$> zip_with (λ r h, Child r (h_parent_id h)) l1 l2 `sublist_of` l1.
Proof.
  revert l2. induction l1 as [|r l1 IH]; intros [|h l2]; csimpl; try done.
  - apply sublist_nil_l.
  - by apply sublist_skip.
Qed.

(** The fine table that enters the split has distinct labels, whatever
    the files hold: it is selected by the sorted elements of a set. *)
Lemma attach_hierarchy_NoDup (ds : list (row D)) (hierarchy_ds : list hrow) :
  NoDup (ids (child_row <$> attach_hierarchy ds hierarchy_ds)).
Proof.
  unfold attach_hierarchy, ids.
  eapply sublist_NoDup; [apply NoDup_sorted|].
  etrans; [apply fmap_sublist, attach_hierarchy_rows|]. apply sel_sublist.
Qed.

Lemma get_forcasted_ds_labels w cause scenario measure draw t slices :
  get_forcasted_ds cause scenario measure draw w = (t, inr slices) →
  Forall (λ s, s.1 = draw) slices.
Proof.
  intros Hget. unfold get_forcasted_ds in Hget. case_bool_decide; [done|].
  apply io_bind_inr_inv in Hget as (? & ? & name & _ & Hget & _).
  apply io_bind_inr_inv in Hget as (? & ? & file & _ & Hget & _).
  apply io_bind_inr_inv in Hget as (? & ? & present & _ & Hget & _).
  destruct present; [|done]. cbn [negb] in Hget.
  apply io_bind_inr_inv in Hget as (? & ? & ds & _ & Hget & _).
  injection Hget as _ <-.
  apply Forall_forall. by intros s [? _]%list_elem_of_filter.
Qed.

(** A run that returns on a forecast holding the requested draw once
    went through [rake] on a fine table with distinct labels and on the
    slice of that draw: the properties of the raking steps hold of what
    it returns. *)
Lemma main_raking_function_returns w cause scenario measure draw t t1 label ds_admin1 merged_ds :
  main_raking_function off_axis cause scenario measure draw w = (t, inr merged_ds) →
  get_forcasted_ds cause scenario measure draw w = (t1, inr [(label, ds_admin1)]) →
  label = draw ∧
  ∃ ds_admin2,
    NoDup (ids (child_row <$> ds_admin2)) ∧
    rake ds_admin2 ds_admin1 = inr merged_ds.
Proof.
  intros (t1' & t2 & t3 & slices & predicted & hierarchy
          & Hget & _ & _ & Hrake)%main_raking_function_inr Hget'.
  rewrite Hget' in Hget. injection Hget as _ <-. split.
  - apply get_forcasted_ds_labels in Hget'. by apply Forall_inv in Hget'.
  - eexists. split; [|exact Hrake]. apply attach_hierarchy_NoDup.
Qed.

End WholeRun.

(** The example world, run for draw 1: labels 95069 and 60908 are
    reconciled into 44858, the children 5 and 44858 of parent 1 are
    raked from 1 and 6 to sevenths of 100, and 7 passes through. *)
Example ex_run off_axis :
  ∃ t merged_ds,
    main_raking_function off_axis "malaria" 0 "death" 1 ex_world = (t, inr merged_ds) ∧
    (λ r, (location_id r, value r tt)) <$> merged_ds =
      [ (5, fdiv (of_Z 100) (of_Z 7)); (44858, fdiv (of_Z 600) (of_Z 7)); (7, of_Z 3) ].
Proof.
  eexists _, _. split; [vm_compute; reflexivity|].
  apply (bool_decide_unpack _). by vm_compute.
Qed.

(** ** More on key reconciliation *)

Section MoreReconciliation.
Context `{Arith} {D : Type}.
Implicit Types (ds : list (row D)).

(** X1.  Key reconciliation leaves a table as it is, rows, order and
    cells, exactly when the table holds none of the retired labels. *)
Theorem impute_location_ids_fixed_point ds :
  impute_location_ids ds = ds ↔ ∀ o, o ∈ IMPUTE_MAP.*1 → o ∉ ids ds.
Proof.
  split.
  - intros Hfix o Ho. rewrite <-Hfix. unfold impute_location_ids.
    apply impute_with_old_gone; [done|].
    intros n Hn ->. pose proof IMPUTE_MAP_rewrite_map as [_ Hwf]. by apply (Hwf o).
  - apply impute_with_absent.
Qed.

Lemma impute_with_NoDup items ds :
  NoDup (ids ds) → NoDup (ids (impute_with items ds)).
Proof.
  revert ds. induction items as [|[o n] items IH]; intros ds Hnd; [done|].
  rewrite impute_with_cons. by apply IH, impute_step_NoDup.
Qed.

Lemma is_Some_merge_cells (n o : option (D → float)) :
  is_Some (merge_cells n o) ↔ is_Some n ∨ is_Some o.
Proof.
  destruct n, o; simpl; split; eauto; intros [[? [=]]|[? [=]]].
Qed.

Lemma same_cells_is_Some (o1 o2 : option (D → float)) :
  same_cells o1 o2 → is_Some o1 ↔ is_Some o2.
Proof. destruct o1, o2; simpl; try done; intros _; split; eauto. Qed.

(** X3.  Labels after key reconciliation, on a table with distinct
    labels: they are distinct again, and they are the labels that were
    there and are not retired, together with 44858 as soon as 44858 or
    one of the retired labels was there. *)
Theorem impute_location_ids_labels ds :
  NoDup (ids ds) →
  NoDup (ids (impute_location_ids ds)) ∧
  ∀ id, id ∈ ids (impute_location_ids ds) ↔
        (id ∈ ids ds ∧ id ∉ IMPUTE_MAP.*1) ∨
        (id = 44858 ∧ ∃ o, o ∈ 44858 :: IMPUTE_MAP.*1 ∧ o ∈ ids ds).
Proof.
  intros Hnd. split; [by apply impute_with_NoDup|].
  intros id.
  pose proof (impute_with_view IMPUTE_MAP ds id Hnd IMPUTE_MAP_rewrite_map) as Hview.
  apply same_cells_is_Some in Hview. fold (impute_location_ids ds) in Hview.
  rewrite <-cell_is_Some, Hview.
  unfold IMPUTE_MAP. cbn [foldl fmap list_fmap fst]. unfold step_view. cbn [fst snd].
  assert (∀ x, x ∈ [60908; 95069; 94364] ↔ x = 60908 ∨ x = 95069 ∨ x = 94364) as Hold.
  { intros x. rewrite !elem_of_cons, elem_of_nil. tauto. }
  repeat case_decide; subst; try done.
  - split; [by intros [? [=]]|]. intros [[_ Hn]|[Heq _]]; [|done].
    destruct Hn. apply Hold. tauto.
  - rewrite !is_Some_merge_cells, !cell_is_Some. split.
    + intros Hany. right. split; [done|].
      destruct Hany as [[[?|?]|?]|?]; eexists; (split; [|done]);
        rewrite elem_of_cons, Hold; tauto.
    + intros [[? _]|[_ (o & Ho & ?)]]; [tauto|].
      rewrite elem_of_cons, Hold in Ho.
      destruct Ho as [->|[->|[->| ->]]]; tauto.
  - split; [by intros [? [=]]|]. intros [[_ Hn]|[Heq _]]; [|done].
    destruct Hn. apply Hold. tauto.
  - split; [by intros [? [=]]|]. intros [[_ Hn]|[Heq _]]; [|done].
    destruct Hn. apply Hold. tauto.
  - rewrite cell_is_Some. split.
    + intros ?. left. split; [done|]. rewrite Hold. intros [?|[?|?]]; done.
    + intros [[? _]|[? _]]; done.
Qed.

End MoreReconciliation.

(** ** More on id alignment and the hierarchy *)

Lemma omap_cons_eq {A B} (f : A → option B) (x : A) (l : list A) :
  omap f (x :: l) = match f x with Some y => y :: omap f l | None => omap f l end.
Proof. reflexivity. Qed.

Section MoreAlignment.
Context `{Arith} {D : Type}.
Implicit Types (ds : list (row D)) (hierarchy_ds : list hrow).

Lemma loc_sel {A} (key : A → Z) (labels : list Z) (l : list A) (k : Z) :
  loc key k (sel key labels l) = if decide (k ∈ labels) then loc key k l else None.
Proof.
  unfold sel. induction labels as [|k' labels IH].
  - by destruct (decide (k ∈ [])) as [?%elem_of_nil|].
  - rewrite omap_cons_eq.
    destruct (loc key k' l) as [r|] eqn:Hr.
    + apply loc_Some in Hr as Hr'. destruct Hr' as [_ Hk]. cbn [loc].
      rewrite Hk. destruct (decide (k' = k)) as [->|Hne].
      * by rewrite decide_True by left.
      * rewrite IH. destruct (decide (k ∈ labels)).
        -- by rewrite decide_True by by right.
        -- rewrite decide_False; [done|]. by intros [?|?]%elem_of_cons.
    + rewrite IH. destruct (decide (k ∈ labels)).
      * by rewrite decide_True by by right.
      * destruct (decide (k ∈ k' :: labels)) as [[->|?]%elem_of_cons|]; done.
Qed.

Lemma sel_ext {A} (key : A → Z) (labels : list Z) (l l' : list A) :
  (∀ k, k ∈ labels → loc key k l = loc key k l') →
  sel key labels l = sel key labels l'.
Proof.
  unfold sel. induction labels as [|k labels IH]; intros Hext; csimpl; [done|].
  rewrite (Hext k) by left. rewrite IH; [done|]. intros k' ?. apply Hext. by right.
Qed.

Lemma elem_of_sorted (s : gset Z) (k : Z) : k ∈ sorted s ↔ k ∈ s.
Proof. unfold sorted. by rewrite merge_sort_Permutation, elem_of_elements. Qed.

Lemma ids_subset_ds_to_admin2_locations hierarchy_ds ds :
  ids (subset_ds_to_admin2_locations hierarchy_ds ds) =
    sorted (list_to_set (h_location_id <$> hierarchy_ds) ∩ list_to_set (ids ds)).
Proof.
  unfold subset_ds_to_admin2_locations, ids. apply sel_keys.
  intros k [_ ?%elem_of_list_to_set]%elem_of_sorted%elem_of_intersection. done.
Qed.

(** X4.  Id alignment keeps the rows of the table whose label the
    hierarchy knows, as they are, in ascending order of label and once
    each. *)
Theorem subset_ds_to_admin2_locations_sorted hierarchy_ds ds :
  StronglySorted Z.le (ids (subset_ds_to_admin2_locations hierarchy_ds ds)) ∧
  NoDup (ids (subset_ds_to_admin2_locations hierarchy_ds ds)) ∧
  (∀ id, id ∈ ids (subset_ds_to_admin2_locations hierarchy_ds ds) ↔
         id ∈ ids ds ∧ id ∈ h_location_id <$> hierarchy_ds) ∧
  (∀ id, id ∈ h_location_id <$> hierarchy_ds →
         cell (subset_ds_to_admin2_locations hierarchy_ds ds) id = cell ds id).
Proof.
  rewrite ids_subset_ds_to_admin2_locations.
  split; [|split; [|split]].
  - apply StronglySorted_merge_sort; apply _.
  - apply NoDup_sorted.
  - intros id. rewrite elem_of_sorted, elem_of_intersection, !elem_of_list_to_set. tauto.
  - intros id Hid. unfold cell, subset_ds_to_admin2_locations. rewrite loc_sel.
    case_decide as Hin; [done|].
    rewrite elem_of_sorted, elem_of_intersection, !elem_of_list_to_set in Hin.
    symmetry. apply fmap_None, loc_None. tauto.
Qed.

(** X5.  Step 3 of the run is absorbed by step 4: attaching the
    hierarchy to the id-aligned table gives what attaching it to the
    table itself gives. *)
Theorem attach_hierarchy_subset_ds_to_admin2_locations hierarchy_ds ds :
  attach_hierarchy (subset_ds_to_admin2_locations hierarchy_ds ds) hierarchy_ds =
    attach_hierarchy ds hierarchy_ds.
Proof.
  unfold attach_hierarchy. rewrite ids_subset_ds_to_admin2_locations.
  assert ((list_to_set (sorted (list_to_set (h_location_id <$> hierarchy_ds)
                                  ∩ list_to_set (ids ds))) : gset Z)
            ∩ list_to_set (h_location_id <$> hierarchy_ds)
          = list_to_set (ids ds) ∩ list_to_set (h_location_id <$> hierarchy_ds)) as ->.
  { apply set_eq. intros k.
    rewrite !elem_of_intersection, !elem_of_list_to_set, elem_of_sorted,
      elem_of_intersection, !elem_of_list_to_set. tauto. }
  f_equal. apply sel_ext. intros k Hk.
  unfold subset_ds_to_admin2_locations. rewrite loc_sel.
  rewrite decide_True; [done|].
  rewrite elem_of_sorted, elem_of_intersection in Hk |- *. tauto.
Qed.

Lemma zip_with_sel {A B C} (f : A → B → C) (keyA : A → Z) (keyB : B → Z)
    (labels : list Z) (la : list A) (lb : list B) :
  (∀ k, k ∈ labels → is_Some (loc keyA k la) ∧ is_Some (loc keyB k lb)) →
  zip_with f (sel keyA labels la) (sel keyB labels lb) =
    omap (λ k, a ← loc keyA k la; b ← loc keyB k lb; Some (f a b)) labels.
Proof.
  unfold sel. induction labels as [|k labels IH]; intros Hall; [done|].
  rewrite !omap_cons_eq.
  destruct (Hall k) as [[a Ha] [b Hb]]; [left|]. rewrite Ha, Hb. csimpl.
  f_equal. apply IH. intros k' ?. apply Hall. by right.
Qed.

Lemma attach_hierarchy_omap ds hierarchy_ds :
  attach_hierarchy ds hierarchy_ds =
    omap (λ k, r ← loc location_id k ds;
               h ← loc h_location_id k hierarchy_ds;
               Some (Child r (h_parent_id h)))
         (sorted (list_to_set (ids ds) ∩ list_to_set (h_location_id <$> hierarchy_ds))).
Proof.
  unfold attach_hierarchy. apply zip_with_sel.
  intros k Hk. rewrite elem_of_sorted, elem_of_intersection, !elem_of_list_to_set in Hk.
  split; apply loc_is_Some; tauto.
Qed.

Lemma ids_attach_hierarchy ds hierarchy_ds :
  ids (child_row <$> attach_hierarchy ds hierarchy_ds) =
    sorted (list_to_set (ids ds) ∩ list_to_set (h_location_id <$> hierarchy_ds)).
Proof.
  rewrite attach_hierarchy_omap.
  assert (∀ k, k ∈ sorted (list_to_set (ids ds)
                             ∩ list_to_set (h_location_id <$> hierarchy_ds)) →
               is_Some (loc location_id k ds) ∧
               is_Some (loc h_location_id k hierarchy_ds)) as Hall.
  { intros k Hk. rewrite elem_of_sorted, elem_of_intersection, !elem_of_list_to_set in Hk.
    split; apply loc_is_Some; tauto. }
  revert Hall.
  generalize (sorted (list_to_set (ids ds)
                        ∩ list_to_set (h_location_id <$> hierarchy_ds))).
  intros labels. induction labels as [|k labels IH]; intros Hall; [done|].
  rewrite omap_cons_eq.
  destruct (Hall k) as [[r Hr] [h Hh]]; [left|]. rewrite Hr, Hh.
  cbn [mbind option_bind]. unfold ids in *. rewrite !fmap_cons. cbn [child_row].
  apply loc_Some in Hr as [_ ->]. f_equal. apply IH.
  intros k' ?. apply Hall. by right.
Qed.

(** X6.  Attaching the hierarchy, for a table and a hierarchy with
    distinct labels: the result holds exactly the rows of the table whose
    label has a hierarchy record, each with the [parent_id] of that
    record, in ascending order of label. *)
Theorem attach_hierarchy_rows_parents ds hierarchy_ds :
  NoDup (ids ds) → NoDup (h_location_id <$> hierarchy_ds) →
  StronglySorted Z.le (ids (child_row <$> attach_hierarchy ds hierarchy_ds)) ∧
  ∀ c : child D,
    c ∈ attach_hierarchy ds hierarchy_ds ↔
    child_row c ∈ ds ∧
    ∃ h, h ∈ hierarchy_ds ∧ h_location_id h = location_id c ∧ parent_id c = h_parent_id h.
Proof.
  intros Hnd Hndh. split.
  - assert (ids (child_row <$> attach_hierarchy ds hierarchy_ds) =
            sorted (list_to_set (ids ds) ∩ list_to_set (h_location_id <$> hierarchy_ds)))
      as ->; [|apply StronglySorted_merge_sort; apply _].
    apply ids_attach_hierarchy.
  - intros c. rewrite attach_hierarchy_omap, list_elem_of_omap. split.
    + intros (k & Hk & Hc).
      destruct (loc location_id k ds) as [r|] eqn:Hr; [|done].
      destruct (loc h_location_id k hierarchy_ds) as [h|] eqn:Hh; [|done].
      injection Hc as <-. simpl.
      apply loc_Some in Hr as [? ?]. apply loc_Some in Hh as [? ?].
      split; [done|]. exists h. repeat split; [done|congruence].
    + intros [Hr (h & Hh & Hkey & Hp)]. exists (location_id c). split.
      * rewrite elem_of_sorted, elem_of_intersection, !elem_of_list_to_set.
        split; [by apply list_elem_of_fmap_2|].
        rewrite <-Hkey. by apply list_elem_of_fmap_2.
      * rewrite (loc_NoDup location_id) by done. csimpl.
        rewrite <-Hkey, (loc_NoDup h_location_id) by done. csimpl.
        destruct c as [r p]. simpl in *. by rewrite Hp.
Qed.

End MoreAlignment.

(** ** More on raking *)

Section MoreRaking.
Context `{Arith} `{!ArithLaws} {D : Type}.
Implicit Types (c : child D) (r : row D) (p : Z) (d : D).

(** X7.  The two partitions share their parent universe: the parents of
    the with-parent fine rows and the labels of the restricted coarse
    table are the same set, the common parents. *)
Theorem partitions_share_parents (ds_admin2 : list (child D)) (ds_admin1 : list (row D)) :
  (list_to_set (parent_id <$> (split_ds_admin2 ds_admin2 ds_admin1).1) : gset Z)
    = common_parents ds_admin2 ds_admin1 ∧
  (list_to_set (ids (split_ds_admin1 ds_admin2 ds_admin1).1) : gset Z)
    = common_parents ds_admin2 ds_admin1 ∧
  NoDup (ids (split_ds_admin1 ds_admin2 ds_admin1).1).
Proof.
  split; [|split].
  - apply set_eq. intros p. by rewrite elem_of_list_to_set, with_parent_parents.
  - apply set_eq. intros p.
    by rewrite elem_of_list_to_set, ids_admin1_with_parent, elem_of_elements.
  - apply NoDup_ids_admin1_with_parent.
Qed.

Lemma NoDup_sel {A} (key : A → Z) (labels : list Z) (l : list A) :
  NoDup labels → NoDup (sel key labels l).
Proof.
  intros Hnd. apply (NoDup_fmap_1 key).
  eapply sublist_NoDup; [done|]. apply sel_sublist.
Qed.

(** X8.  The coarse split loses and repeats nothing: for a coarse table
    with distinct labels, its two parts together are a permutation of
    it; the first part holds the rows that are the parent of some fine
    row, the second those that are not. *)
Theorem split_ds_admin1_partition (ds_admin2 : list (child D)) (ds_admin1 : list (row D)) :
  NoDup (ids ds_admin1) →
  (split_ds_admin1 ds_admin2 ds_admin1).1 ++ (split_ds_admin1 ds_admin2 ds_admin1).2
    ≡ₚ ds_admin1 ∧
  (∀ r, r ∈ (split_ds_admin1 ds_admin2 ds_admin1).1 ↔
        r ∈ ds_admin1 ∧ location_id r ∈ parent_id <$> ds_admin2) ∧
  (∀ r, r ∈ (split_ds_admin1 ds_admin2 ds_admin1).2 ↔
        r ∈ ds_admin1 ∧ location_id r ∉ parent_id <$> ds_admin2).
Proof.
  intros Hnd.
  assert (∀ r, r ∈ (split_ds_admin1 ds_admin2 ds_admin1).2 ↔
               r ∈ ds_admin1 ∧ location_id r ∉ parent_id <$> ds_admin2) as Hsnd.
  { intros r. simpl. rewrite elem_of_sel by done.
    rewrite elem_of_elements, elem_of_difference, !elem_of_list_to_set,
      elem_of_elements, elem_of_common_parents.
    split.
    - intros (Hr & Hid & Hn). split; [done|]. intros ?. by apply Hn.
    - intros [Hr Hn]. split; [done|]. split; [by apply list_elem_of_fmap_2|].
      by intros [? _]. }
  split; [|split; [intros r; by apply elem_of_admin1_with_parent|done]].
  apply NoDup_Permutation.
  - apply NoDup_app. split; [|split].
    + simpl. apply NoDup_sel, NoDup_elements.
    + intros r [_ Hp]%elem_of_admin1_with_parent [_ Hn]%Hsnd; done.
    + simpl. apply NoDup_sel, NoDup_elements.
  - by apply (NoDup_fmap_1 location_id).
  - intros r. rewrite elem_of_app, elem_of_admin1_with_parent, Hsnd by done.
    destruct (decide (location_id r ∈ parent_id <$> ds_admin2)); tauto.
Qed.

Lemma filter_all {A} (P : A → Prop) `{!∀ x, Decision (P x)} (l : list A) :
  (∀ x, x ∈ l → P x) → filter P l = l.
Proof.
  induction l as [|x l IH]; intros Hall; [done|].
  rewrite filter_cons, decide_True by (apply Hall; left).
  f_equal. apply IH. intros y ?. apply Hall. by right.
Qed.

Lemma filter_none {A} (P : A → Prop) `{!∀ x, Decision (P x)} (l : list A) :
  (∀ x, x ∈ l → ¬ P x) → filter P l = [].
Proof.
  induction l as [|x l IH]; intros Hall; [done|].
  rewrite filter_cons, decide_False by (apply Hall; left).
  apply IH. intros y ?. apply Hall. by right.
Qed.

(** X9.  Steps 5 to 10 fail in one way only.  They raise the
    [ValueError] of the group sum exactly when no fine row has its
    parent among the labels of the coarse table (an empty coarse table,
    for one); the with-parent partition is then empty and the
    without-parent partition is the whole fine table. *)
Theorem rake_no_common_parent (ds_admin2 : list (child D)) (ds_admin1 : list (row D)) :
  ((∀ c, c ∈ ds_admin2 → parent_id c ∉ ids ds_admin1) ↔
   rake ds_admin2 ds_admin1 = inl (ValueError "parent_id must not be empty")) ∧
  ((∀ c, c ∈ ds_admin2 → parent_id c ∉ ids ds_admin1) →
   split_ds_admin2 ds_admin2 ds_admin1 = ([], ds_admin2)) ∧
  (∀ e, rake ds_admin2 ds_admin1 = inl e →
        e = ValueError "parent_id must not be empty").
Proof.
  split; [|split].
  - split.
    + intros Hno. by apply rake_empty, with_parent_empty.
    + intros Hrake. apply with_parent_empty.
      destruct (decide ((split_ds_admin2 ds_admin2 ds_admin1).1 = [])) as [|Hne]; [done|].
      apply rake_returns in Hne as [merged Hm]. by rewrite Hm in Hrake.
  - intros Hno. unfold split_ds_admin2. f_equal.
    + apply filter_none. intros c Hc [_ ?]%elem_of_elements%elem_of_common_parents.
      by apply (Hno c).
    + apply filter_all. intros c Hc [_ ?]%elem_of_elements%elem_of_common_parents.
      by apply (Hno c).
  - intros e He. by apply rake_inl in He as [-> _].
Qed.

(** X10.  The only way the broadcast fails is a fine row whose parent
    has no factor (the [KeyError] of [sel]); otherwise every row comes
    back under its own label, multiplied by the factor of its parent. *)
Theorem broadcast_factor_to_admin2_KeyError (ds_admin2 : list (child D)) (factor : list (row D)) :
  (broadcast_factor_to_admin2 ds_admin2 factor = None ↔
   ∃ c, c ∈ ds_admin2 ∧ parent_id c ∉ ids factor) ∧
  ((∀ c, c ∈ ds_admin2 → parent_id c ∈ ids factor) →
   broadcast_factor_to_admin2 ds_admin2 factor = Some (apply_factor factor <$> ds_admin2)).
Proof.
  split; [|apply broadcast_factor_to_admin2_rows].
  unfold broadcast_factor_to_admin2. rewrite mapM_None, Exists_exists.
  split; intros (c & Hc & Hp); exists c; (split; [done|]).
  - destruct (loc location_id (parent_id c) factor) eqn:Hf; [done|].
    by apply loc_None in Hf.
  - apply loc_None in Hp. by rewrite Hp.
Qed.

(** X11.  Raking keeps the shape within a group: in every cell the rows
    of the with-parent partition that share a parent are multiplied by
    one and the same factor, the one step 6 stores for their parent. *)
Theorem siblings_share_factor (ds_admin2 : list (child D)) (ds_admin1 : list (row D)) :
  NoDup (ids (child_row <$> ds_admin2)) →
  ∀ c1 c2 d,
    c1 ∈ (split_ds_admin2 ds_admin2 ds_admin1).1 →
    c2 ∈ (split_ds_admin2 ds_admin2 ds_admin1).1 →
    parent_id c1 = parent_id c2 →
    ∃ factor merged v1 v2 k,
      sum_and_align_admin2_totals
        (split_ds_admin2 ds_admin2 ds_admin1).1
        (split_ds_admin1 ds_admin2 ds_admin1).1 = inr factor ∧
      rake ds_admin2 ds_admin1 = inr merged ∧
      k = factor_at factor (parent_id c1) d ∧
      cell merged (location_id c1) = Some v1 ∧
      cell merged (location_id c2) = Some v2 ∧
      v1 d = fmul (value c1 d) k ∧ v2 d = fmul (value c2 d) k.
Proof.
  intros Hnd c1 c2 d Hc1 Hc2 Hp.
  assert ((split_ds_admin2 ds_admin2 ds_admin1).1 ≠ []) as Hne
    by by eapply with_parent_inhabited.
  eexists _, _, _, _, _.
  split; [by apply sum_and_align_admin2_totals_inr|].
  split; [by apply rake_rows|]. split; [reflexivity|].
  split; [|split; [|split]].
  - eapply cell_rake_with_parent; [done|by apply rake_rows|done].
  - eapply cell_rake_with_parent; [done|by apply rake_rows|done].
  - reflexivity.
  - simpl. by rewrite Hp.
Qed.

End MoreRaking.

Section MissingCells.
Context `{Arith} `{!ArithLaws} {D : Type}.

(** X13.  Missing cells.  A with-parent row whose prediction is NaN in
    a cell is NaN there in the merged output; and where the forecast of
    the parent is NaN while the children do not sum to 0, every child of
    that parent is NaN in the merged output. *)
Theorem rake_missing_cells (ds_admin2 : list (child D)) (ds_admin1 : list (row D)) :
  NoDup (ids (child_row <$> ds_admin2)) →
  ∀ (c : child D) (r : row D) d,
    c ∈ (split_ds_admin2 ds_admin2 ds_admin1).1 →
    r ∈ (split_ds_admin1 ds_admin2 ds_admin1).1 →
    location_id r = parent_id c →
    ∃ merged v,
      rake ds_admin2 ds_admin1 = inr merged ∧
      cell merged (location_id c) = Some v ∧
      (value c d = NaN → v d = NaN) ∧
      (value r d = NaN →
       is_zero (group_sum (split_ds_admin2 ds_admin2 ds_admin1).1 (parent_id c) d) = false →
       v d = NaN).
Proof.
  intros Hnd c r d Hc Hr Hrc.
  assert ((split_ds_admin2 ds_admin2 ds_admin1).1 ≠ []) as Hne
    by by eapply with_parent_inhabited.
  destruct (restricted_factor ds_admin2 ds_admin1 r Hr) as (_ & f & Hf & Hfd).
  rewrite Hrc in Hf, Hfd.
  eexists _, _. split; [by apply rake_rows|].
  split; [eapply cell_rake_with_parent; [done|by apply rake_rows|done]|].
  cbn [apply_factor value]. rewrite (factor_at_cell _ _ f) by done. split.
  - intros ->. apply fmul_NaN_l.
  - intros Hr0 Hsum. rewrite Hfd, factor_cell_cases, Hr0, Hsum, is_zero_NaN.
    cbn [orb].
    by rewrite fdiv_NaN_l, fmul_NaN_r.
Qed.

End MissingCells.

(** ** The run, outcome by outcome *)

Section RunTable.
Context `{Arith} {D : Type} (off_axis : by_draw D → list (child D) → exn + list (row D)).
Implicit Types (w : world D).

Lemma output_path_output_dir cause scenario measure draw :
  output_path cause scenario measure draw =
    (λ dir, dir // draw_filename draw) <$> output_dir cause scenario measure.
Proof.
  unfold output_path, output_dir.
  destruct (SCENARIO_MAP !! scenario); [|done]. csimpl.
  by destruct (MEASURE_MAP_save !! measure).
Qed.

(** The tables of the three functions have the same domain: a
    combination and a cause that [get_forcasted_ds] accepts have an
    input folder and an output directory. *)
Lemma known_paths cause scenario measure pf :
  forecast_path cause scenario measure = Some pf →
  ∃ pd dir, predicted_folder cause scenario measure = Some pd ∧
            output_dir cause scenario measure = Some dir.
Proof.
  unfold forecast_path.
  destruct (scenario_and_measure_map !! (scenario, measure)) as [name|] eqn:Hname; [|done].
  destruct (CAUSE_MAP !! cause) as [file|] eqn:Hfile; [|done]. intros _.
  apply elem_of_list_to_map_2 in Hname. apply elem_of_list_to_map_2 in Hfile.
  rewrite !elem_of_cons, elem_of_nil in Hname.
  rewrite !elem_of_cons, elem_of_nil in Hfile.
  destruct Hfile as [[= -> ->]|[[= -> ->]|[]]];
    repeat (destruct Hname as [[= -> -> ->]|Hname]; [by eexists _, _|]);
    done.
Qed.

Lemma get_forcasted_ds_table w cause scenario measure draw pf :
  forecast_path cause scenario measure = Some pf →
  get_forcasted_ds cause scenario measure draw w =
    if fs_exists w pf
    then ([EvExists pf; EvOpen pf], inr (where_draw draw (forecast_nc w pf)))
    else ([EvExists pf], inl (FileNotFoundError pf)).
Proof.
  unfold forecast_path.
  destruct (scenario_and_measure_map !! (scenario, measure)) as [name|] eqn:Hname; [|done].
  destruct (CAUSE_MAP !! cause) as [file|] eqn:Hfile; [|done].
  cbn [mbind option_bind]. intros [= <-].
  destruct (fs_exists w _) eqn:Hex; [by apply get_forcasted_ds_ok|].
  unfold get_forcasted_ds.
  rewrite bool_decide_eq_false_2 by by rewrite Hname.
  unfold dict_get. rewrite Hname, Hfile.
  unfold mbind, io_mbind, io_bind, mret, io_mret, io_ret, path_exists.
  cbn beta iota zeta. by rewrite Hex.
Qed.

Lemma get_predicted_ds_table w cause scenario measure draw pd :
  predicted_folder cause scenario measure = Some pd →
  get_predicted_ds cause scenario measure draw w =
    if fs_exists w pd then
      ([EvExists pd; EvOpen (pd // draw_filename draw)],
       if fs_exists w (pd // draw_filename draw)
       then inr (predicted_nc w (pd // draw_filename draw))
       else inl (FileNotFoundError (pd // draw_filename draw)))
    else ([EvExists pd], inl (FileNotFoundError pd)).
Proof.
  unfold predicted_folder, get_predicted_ds, dict_get.
  destruct (SCENARIO_MAP !! scenario) as [sn|]; [|done].
  destruct (MEASURE_MAP !! measure) as [mn|]; [|done].
  cbn [mbind option_bind].
  destruct (decide (cause = "malaria")) as [?|?];
    [|destruct (decide (cause = "dengue")) as [?|?]; [|done]];
    intros [= <-];
    cbv [mbind io_mbind io_bind mret io_mret io_ret path_exists of_option
           open_dataset draw_filename raise emit app];
    (destruct (fs_exists w _); cbn [negb]; [by destruct (fs_exists w _)|done]).
Qed.

Lemma load_in_hierarchy_dataset_table w :
  load_in_hierarchy_dataset w =
    ([EvOpen hierarchy_path],
     if fs_exists w hierarchy_path
     then inr (admin2_level (hierarchy_nc w hierarchy_path))
     else inl (FileNotFoundError hierarchy_path)).
Proof.
  unfold load_in_hierarchy_dataset, hierarchy_path.
  unfold mbind, io_mbind, io_bind, mret, io_mret, io_ret, open_dataset.
  by destruct (fs_exists w _).
Qed.

(** The save makes its five calls in order until the operating system
    refuses one, and prints when none was refused. *)
Lemma save_raked_dataset_optimized_table w cause scenario measure draw merged_ds dir :
  output_dir cause scenario measure = Some dir →
  save_raked_dataset_optimized cause scenario measure draw merged_ds w =
    if fs_refuses w (EvMkdir (deliverable_root // "output")) then
      ([EvMkdir (deliverable_root // "output")],
       inl (CallFailed (EvMkdir (deliverable_root // "output"))))
    else if fs_refuses w (EvChmod (deliverable_root // "output")) then
      ([EvMkdir (deliverable_root // "output"); EvChmod (deliverable_root // "output")],
       inl (CallFailed (EvChmod (deliverable_root // "output"))))
    else if fs_refuses w (EvMkdir dir) then
      ([EvMkdir (deliverable_root // "output"); EvChmod (deliverable_root // "output");
        EvMkdir dir],
       inl (CallFailed (EvMkdir dir)))
    else if fs_refuses w (EvToNetcdf (dir // draw_filename draw)) then
      ([EvMkdir (deliverable_root // "output"); EvChmod (deliverable_root // "output");
        EvMkdir dir; EvToNetcdf (dir // draw_filename draw)],
       inl (CallFailed (EvToNetcdf (dir // draw_filename draw))))
    else if fs_refuses w (EvChmod (dir // draw_filename draw)) then
      ([EvMkdir (deliverable_root // "output"); EvChmod (deliverable_root // "output");
        EvMkdir dir; EvToNetcdf (dir // draw_filename draw);
        EvChmod (dir // draw_filename draw)],
       inl (CallFailed (EvChmod (dir // draw_filename draw))))
    else (save_trace dir draw, inr ()).
Proof.
  unfold output_dir, save_raked_dataset_optimized, dict_get.
  destruct (SCENARIO_MAP !! scenario) as [sn|]; [|done].
  destruct (MEASURE_MAP_save !! measure) as [msave|]; [|done].
  cbn [mbind option_bind]. intros [= <-].
  cbv [mbind io_mbind io_bind mret io_mret io_ret sys_call emit draw_filename save_trace].
  repeat (destruct (fs_refuses w _); [reflexivity|]). reflexivity.
Qed.

(** What the save leaves behind: either all six calls and no exception,
    or the calls up to the one the operating system refused, which is a
    write, and the exception of that call. *)
Lemma save_raked_dataset_optimized_outcome w cause scenario measure draw merged_ds dir t r :
  output_dir cause scenario measure = Some dir →
  save_raked_dataset_optimized cause scenario measure draw merged_ds w = (t, r) →
  (r = inr () ∧ t = save_trace dir draw) ∨
  (∃ t0 call,
     r = inl (CallFailed call) ∧ t = t0 ++ [call] ∧
     fs_refuses w call = true ∧ is_write_event call = true ∧
     t `prefix_of` save_trace dir draw).
Proof.
  intros Hdir Hsave.
  rewrite (save_raked_dataset_optimized_table w _ _ _ draw merged_ds dir Hdir) in Hsave.
  destruct (fs_refuses w (EvMkdir (deliverable_root // "output"))) eqn:E1.
  { injection Hsave as <- <-. right. exists [], (EvMkdir (deliverable_root // "output")).
    repeat split; [done|]. by eexists. }
  destruct (fs_refuses w (EvChmod (deliverable_root // "output"))) eqn:E2.
  { injection Hsave as <- <-. right.
    exists [EvMkdir (deliverable_root // "output")],
           (EvChmod (deliverable_root // "output")).
    repeat split; [done|]. by eexists. }
  destruct (fs_refuses w (EvMkdir dir)) eqn:E3.
  { injection Hsave as <- <-. right.
    exists [EvMkdir (deliverable_root // "output");
            EvChmod (deliverable_root // "output")], (EvMkdir dir).
    repeat split; [done|]. by eexists. }
  destruct (fs_refuses w (EvToNetcdf (dir // draw_filename draw))) eqn:E4.
  { injection Hsave as <- <-. right.
    exists [EvMkdir (deliverable_root // "output");
            EvChmod (deliverable_root // "output"); EvMkdir dir],
           (EvToNetcdf (dir // draw_filename draw)).
    repeat split; [done|]. by eexists. }
  destruct (fs_refuses w (EvChmod (dir // draw_filename draw))) eqn:E5.
  { injection Hsave as <- <-. right.
    exists [EvMkdir (deliverable_root // "output");
            EvChmod (deliverable_root // "output"); EvMkdir dir;
            EvToNetcdf (dir // draw_filename draw)],
           (EvChmod (dir // draw_filename draw)).
    repeat split; [done|]. by eexists. }
  injection Hsave as <- <-. by left.
Qed.

Lemma io_bind_inr {A B} (k : A → io D B) (m : io D A) w t a :
  m w = (t, inr a) → (m ≫= k) w = ((t ++ (k a w).1), (k a w).2).
Proof. unfold mbind, io_mbind, io_bind. intros ->. by destruct (k a w). Qed.

(** The run on a known combination, as a table over what the file
    system holds. *)
Lemma main_raking_function_known w cause scenario measure draw pf pd dir :
  forecast_path cause scenario measure = Some pf →
  predicted_folder cause scenario measure = Some pd →
  output_dir cause scenario measure = Some dir →
  main_raking_function off_axis cause scenario measure draw w =
    if negb (fs_exists w pf) then ([EvExists pf], inl (FileNotFoundError pf))
    else if negb (fs_exists w pd) then
      ([EvExists pf; EvOpen pf; EvExists pd], inl (FileNotFoundError pd))
    else if negb (fs_exists w (pd // draw_filename draw)) then
      ([EvExists pf; EvOpen pf; EvExists pd; EvOpen (pd // draw_filename draw)],
       inl (FileNotFoundError (pd // draw_filename draw)))
    else if negb (fs_exists w hierarchy_path) then
      (load_trace pf pd draw, inl (FileNotFoundError hierarchy_path))
    else
      let ds_admin2 :=
        attach_hierarchy
          (subset_ds_to_admin2_locations
             (admin2_level (hierarchy_nc w hierarchy_path))
             (impute_location_ids (predicted_nc w (pd // draw_filename draw))))
          (admin2_level (hierarchy_nc w hierarchy_path)) in
      match
        match where_draw draw (forecast_nc w pf) with
        | [(_, ds_admin1)] => rake ds_admin2 ds_admin1
        | _ => off_axis (where_draw draw (forecast_nc w pf)) ds_admin2
        end
      with
      | inl e => (load_trace pf pd draw, inl e)
      | inr merged_ds =>
          match save_raked_dataset_optimized cause scenario measure draw merged_ds w with
          | (t, inl e) => (load_trace pf pd draw ++ t, inl e)
          | (t, inr _) => (load_trace pf pd draw ++ t, inr merged_ds)
          end
      end.
Proof.
  intros Hpf Hpd Hdir. unfold main_raking_function, transpose, subset_admin1_to_admin2_dims.
  pose proof (get_forcasted_ds_table w cause scenario measure draw pf Hpf) as H1.
  pose proof (get_predicted_ds_table w cause scenario measure draw pd Hpd) as H2.
  pose proof (load_in_hierarchy_dataset_table w) as H3.
  destruct (fs_exists w pf); cbn [negb]; [|by apply io_bind_inl].
  rewrite (io_bind_inr _ _ _ _ _ H1).
  destruct (fs_exists w pd); cbn [negb];
    [|by rewrite (io_bind_inl _ _ _ _ _ H2)].
  destruct (fs_exists w (pd // draw_filename draw)); cbn [negb];
    [|by rewrite (io_bind_inl _ _ _ _ _ H2)].
  rewrite (io_bind_inr _ _ _ _ _ H2).
  destruct (fs_exists w hierarchy_path); cbn [negb];
    [|by rewrite (io_bind_inl _ _ _ _ _ H3)].
  rewrite (io_bind_inr _ _ _ _ _ H3).
  cbv zeta.
  set (ds_admin2 := attach_hierarchy _ _).
  set (steps := match where_draw draw (forecast_nc w pf) with
                | [(_, ds_admin1)] => rake ds_admin2 ds_admin1
                | _ => off_axis (where_draw draw (forecast_nc w pf)) ds_admin2
                end).
  clearbody steps ds_admin2. clear H1 H2 H3.
  destruct steps as [e|merged_ds].
  { by rewrite (io_bind_inl _ (of_result (inl e)) w [] e). }
  rewrite (io_bind_inr _ (of_result (inr merged_ds)) w [] merged_ds) by done.
  destruct (save_raked_dataset_optimized cause scenario measure draw merged_ds w)
    as [t [e|[]]] eqn:Hsave.
  - by rewrite (io_bind_inl _ _ _ _ _ Hsave).
  - rewrite (io_bind_inr _ _ _ _ _ Hsave).
    unfold mret, io_mret, io_ret. cbn [fst snd app]. by rewrite app_nil_r.
Qed.

Lemma main_raking_function_unknown w cause scenario measure draw :
  forecast_path cause scenario measure = None →
  main_raking_function off_axis cause scenario measure draw w =
    ([], inl (if bool_decide (scenario_and_measure_map !! (scenario, measure) = None)
              then ValueError "Invalid scenario ID and measure combination."
              else KeyError)) ∧
  (scenario_and_measure_map !! (scenario, measure) = None ∨ CAUSE_MAP !! cause = None).
Proof.
  unfold forecast_path, main_raking_function, transpose, subset_admin1_to_admin2_dims. intros Hpf.
  destruct (scenario_and_measure_map !! (scenario, measure)) as [name|] eqn:Hname.
  - destruct (CAUSE_MAP !! cause) as [file|] eqn:Hfile; [done|].
    rewrite bool_decide_eq_false_2 by done. split; [|by right].
    apply io_bind_inl, get_forcasted_ds_bad_cause; [by rewrite Hname|done].
  - rewrite bool_decide_eq_true_2 by done. split; [|by left].
    by apply io_bind_inl, get_forcasted_ds_bad_combination.
Qed.

(** X15.  When the run goes through.  For a combination the tables know,
    with the forecast file, the input folder, the prediction of the draw
    and the hierarchy file on disk, one slice of the forecast labelled
    with the draw, a fine row whose parent is a label of that slice, and
    an operating system that refuses no call, the run returns what steps
    5 to 10 make of the slice, and the trace is the five reads followed
    by the six calls of the save, in that order. *)
Theorem main_raking_function_succeeds w cause scenario measure draw pf pd dir slice :
  forecast_path cause scenario measure = Some pf →
  predicted_folder cause scenario measure = Some pd →
  output_dir cause scenario measure = Some dir →
  fs_exists w pf = true →
  fs_exists w pd = true →
  fs_exists w (pd // draw_filename draw) = true →
  fs_exists w hierarchy_path = true →
  writable w →
  where_draw draw (forecast_nc w pf) = [(draw, slice)] →
  (∃ c, c ∈ attach_hierarchy
              (subset_ds_to_admin2_locations
                 (admin2_level (hierarchy_nc w hierarchy_path))
                 (impute_location_ids (predicted_nc w (pd // draw_filename draw))))
              (admin2_level (hierarchy_nc w hierarchy_path))
        ∧ parent_id c ∈ ids slice) →
  ∃ merged_ds,
    main_raking_function off_axis cause scenario measure draw w =
      (load_trace pf pd draw ++ save_trace dir draw, inr merged_ds) ∧
    rake (attach_hierarchy
            (subset_ds_to_admin2_locations
               (admin2_level (hierarchy_nc w hierarchy_path))
               (impute_location_ids (predicted_nc w (pd // draw_filename draw))))
            (admin2_level (hierarchy_nc w hierarchy_path)))
         slice = inr merged_ds.
Proof.
  intros Hpf Hpd Hdir E1 E2 E3 E4 Hw Hslice Hchild.
  rewrite (main_raking_function_known w _ _ _ draw pf pd dir) by done.
  rewrite E1, E2, E3, E4, Hslice. cbn [negb]. cbv zeta.
  apply with_parent_nonempty, rake_returns in Hchild as [merged_ds Hrake].
  exists merged_ds. rewrite Hrake. split; [|done].
  rewrite (save_raked_dataset_optimized_table w _ _ _ draw merged_ds dir Hdir).
  by rewrite !Hw.
Qed.

Lemma io_failure_eq {A} (t t' : list event) (e e' : exn) :
  (t, inl e : exn + A) = (t', inl e') → t = t' ∧ e = e'.
Proof. by intros [= -> ->]. Qed.

(** X16.  How the run fails, on a forecast that holds the requested draw
    once.  A [ValueError] comes either with an empty trace, from an
    unknown (scenario, measure) pair, or after the five reads, from the
    group sum of step 6 when no fine row has its parent in the slice; a
    [KeyError] comes with an empty trace, from an unknown cause; a
    [FileNotFoundError] names a path that is not on disk and that the
    last call of the trace looked up or opened; the unassigned
    [draw_folder] of [get_predicted_ds] is out of reach of the run; the
    exception of a failed call comes from a [mkdir], [chmod] or
    [to_netcdf] of the save, after the five reads and the calls of the
    save before it, which stay done.  Any other exception of a run comes
    before any directory was made, any file written, any mode changed
    and anything printed. *)
Theorem main_raking_function_failure w cause scenario measure draw t e :
  (∀ pf, forecast_path cause scenario measure = Some pf →
         ∃ slice, where_draw draw (forecast_nc w pf) = [(draw, slice)]) →
  main_raking_function off_axis cause scenario measure draw w = (t, inl e) →
  match e with
  | ValueError msg =>
      (t = [] ∧ scenario_and_measure_map !! (scenario, measure) = None ∧
       msg = "Invalid scenario ID and measure combination.") ∨
      (∃ pf pd slice,
         forecast_path cause scenario measure = Some pf ∧
         predicted_folder cause scenario measure = Some pd ∧
         t = load_trace pf pd draw ∧
         msg = "parent_id must not be empty" ∧
         where_draw draw (forecast_nc w pf) = [(draw, slice)] ∧
         ∀ c, c ∈ attach_hierarchy
                    (subset_ds_to_admin2_locations
                       (admin2_level (hierarchy_nc w hierarchy_path))
                       (impute_location_ids (predicted_nc w (pd // draw_filename draw))))
                    (admin2_level (hierarchy_nc w hierarchy_path)) →
              parent_id c ∉ ids slice)
  | KeyError => t = [] ∧ CAUSE_MAP !! cause = None
  | FileNotFoundError p =>
      fs_exists w p = false ∧ ∃ t0, t = t0 ++ [EvExists p] ∨ t = t0 ++ [EvOpen p]
  | UnboundLocalError _ => False
  | CallFailed call =>
      fs_refuses w call = true ∧ is_write_event call = true ∧
      ∃ pf pd dir t0,
        forecast_path cause scenario measure = Some pf ∧
        predicted_folder cause scenario measure = Some pd ∧
        output_dir cause scenario measure = Some dir ∧
        t = load_trace pf pd draw ++ t0 ++ [call] ∧
        t0 ++ [call] `prefix_of` save_trace dir draw
  end ∧
  ((∀ call, e ≠ CallFailed call) →
   Forall (λ ev, is_write_event ev = false ∧ is_fs_event ev = true) t).
Proof.
  intros Hslice Hmain.
  destruct (forecast_path cause scenario measure) as [pf|] eqn:Hpf.
  - destruct (known_paths _ _ _ _ Hpf) as (pd & dir & Hpd & Hdir).
    destruct (Hslice pf eq_refl) as [slice Hdraw]. clear Hslice.
    rewrite (main_raking_function_known w _ _ _ draw pf pd dir) in Hmain by done.
    destruct (fs_exists w pf) eqn:E1; cbn [negb] in Hmain;
      [|apply io_failure_eq in Hmain as [<- <-]; split; [|by repeat constructor];
        split; [done|]; exists []; by left].
    destruct (fs_exists w pd) eqn:E2; cbn [negb] in Hmain;
      [|apply io_failure_eq in Hmain as [<- <-]; split; [|by repeat constructor];
        split; [done|]; exists [EvExists pf; EvOpen pf]; by left].
    destruct (fs_exists w (pd // draw_filename draw)) eqn:E3; cbn [negb] in Hmain;
      [|apply io_failure_eq in Hmain as [<- <-]; split; [|by repeat constructor];
        split; [done|]; exists [EvExists pf; EvOpen pf; EvExists pd]; by right].
    destruct (fs_exists w hierarchy_path) eqn:E4; cbn [negb] in Hmain;
      [|apply io_failure_eq in Hmain as [<- <-]; split; [|by repeat constructor];
        split; [done|];
        exists [EvExists pf; EvOpen pf; EvExists pd; EvOpen (pd // draw_filename draw)];
        by right].
    assert (Forall (λ ev, is_write_event ev = false ∧ is_fs_event ev = true)
              (load_trace pf pd draw)) as Hw by by repeat constructor.
    rewrite Hdraw in Hmain. cbv zeta in Hmain.
    destruct (rake _ slice) as [e'|merged_ds] eqn:Hrake.
    + apply io_failure_eq in Hmain as [<- <-].
      apply rake_inl in Hrake as [-> Hno]. split; [|done].
      right. by exists pf, pd, slice.
    + destruct (save_raked_dataset_optimized cause scenario measure draw merged_ds w)
        as [t' [e'|[]]] eqn:Hsave; [|by injection Hmain].
      apply io_failure_eq in Hmain as [<- <-].
      destruct (save_raked_dataset_optimized_outcome w _ _ _ draw merged_ds dir _ _
                  Hdir Hsave)
        as [[Heq _]|(t0 & call & Heq & -> & Href & Hwr & Hpre)]; [done|].
      injection Heq as ->.
      split; [|by intros Hcall; destruct (Hcall call)].
      split; [done|]. split; [done|]. by exists pf, pd, dir, t0.
  - destruct (main_raking_function_unknown w cause scenario measure draw Hpf)
      as [Hmain' Hbad].
    rewrite Hmain' in Hmain. apply io_failure_eq in Hmain as [<- <-].
    split; [|done].
    case_bool_decide as Hc; [by left|].
    by destruct Hbad.
Qed.

(** X17.  What the run writes, the launcher's check finds.  A run that
    returns has known paths, the trace of X15, and writes one file, at
    [output_path]; [check_if_path_draw_exists] for the same combination
    looks up that very path and answers whether it exists. *)
Theorem saved_output_is_found w cause scenario measure draw t merged_ds :
  main_raking_function off_axis cause scenario measure draw w = (t, inr merged_ds) →
  ∃ pf pd dir p,
    forecast_path cause scenario measure = Some pf ∧
    predicted_folder cause scenario measure = Some pd ∧
    output_dir cause scenario measure = Some dir ∧
    output_path cause scenario measure draw = Some p ∧
    t = load_trace pf pd draw ++ save_trace dir draw ∧
    (∀ q, EvToNetcdf q ∈ t ↔ q = p) ∧
    ∀ w' : world D,
      check_if_path_draw_exists cause scenario measure draw w' =
        ([EvExists p], inr (fs_exists w' p)).
Proof.
  intros Hmain.
  destruct (forecast_path cause scenario measure) as [pf|] eqn:Hpf;
    [|destruct (main_raking_function_unknown w cause scenario measure draw Hpf)
        as [Hmain' _]; by rewrite Hmain' in Hmain].
  destruct (known_paths _ _ _ _ Hpf) as (pd & dir & Hpd & Hdir).
  rewrite (main_raking_function_known w _ _ _ draw pf pd dir) in Hmain by done.
  assert (output_path cause scenario measure draw = Some (dir // draw_filename draw)) as Hp.
  { by rewrite output_path_output_dir, Hdir. }
  exists pf, pd, dir, (dir // draw_filename draw).
  split; [done|]. split; [exact Hpd|]. split; [exact Hdir|]. split; [exact Hp|].
  pose proof (λ w' : world D,
    check_if_path_draw_exists_output_path w' _ _ _ _ _ Hp) as Hcheck.
  clear Hpf Hpd Hp.
  destruct (fs_exists w pf); [|done].
  destruct (fs_exists w pd); [|done].
  destruct (fs_exists w (pd // draw_filename draw)); [|done].
  destruct (fs_exists w hierarchy_path); [|done]. cbn [negb] in Hmain.
  cbv zeta in Hmain.
  match type of Hmain with
  | match ?steps with inl _ => _ | inr _ => _ end = _ =>
      destruct steps as [e|merged]; [done|]
  end.
  destruct (save_raked_dataset_optimized cause scenario measure draw merged w)
    as [t' [e|[]]] eqn:Hsave; [done|].
  injection Hmain as <- <-.
  destruct (save_raked_dataset_optimized_outcome w _ _ _ draw merged dir _ _
              Hdir Hsave)
    as [[_ ->]|(t0 & call & Heq & _)]; [|done].
  split; [done|]. split.
  - intros q. unfold load_trace, save_trace. cbn [app]. split.
    + intros Hin.
      repeat (apply elem_of_cons in Hin as [Hin|Hin]; [by simplify_eq|]).
      by apply elem_of_nil in Hin.
    + intros ->. do 8 apply list_elem_of_further. apply list_elem_of_here.
  - exact Hcheck.
Qed.

End RunTable.

Section MoreRuns.
Context `{Arith} {D : Type}.
Implicit Types (w : world D).

(** X18.  [MEASURE_MAP] of [get_predicted_ds] sends [yll] to the
    mortality predictions and [yld] to the incidence predictions: a run
    for [yll] reads the prediction file that a run for [death] reads,
    and a run for [yld] the one that a run for [incidence] reads. *)
Theorem get_predicted_ds_measure_aliases w cause scenario draw :
  get_predicted_ds cause scenario "yll" draw w =
    get_predicted_ds cause scenario "death" draw w ∧
  get_predicted_ds cause scenario "yld" draw w =
    get_predicted_ds cause scenario "incidence" draw w.
Proof.
  assert (dict_get (D:=D) MEASURE_MAP "yll" = dict_get MEASURE_MAP "death") as H1
    by reflexivity.
  assert (dict_get (D:=D) MEASURE_MAP "yld" = dict_get MEASURE_MAP "incidence") as H2
    by reflexivity.
  unfold get_predicted_ds. by rewrite H1, H2.
Qed.

End MoreRuns.

(** ** The launcher and the files of its tasks *)

(** *** Paths as strings *)

Lemma string_cons_eq (a b : Ascii.ascii) (s t : string) :
  String a s = String b t → a = b ∧ s = t.
Proof. by intros [= -> ->]. Qed.

Lemma string_length_append (a s : string) :
  String.length (a +:+ s) = (String.length a + String.length s)%nat.
Proof. induction a as [|c a IH]; simpl; [done|]. by rewrite IH. Qed.

Lemma string_append_inv_tail (a b s : string) : a +:+ s = b +:+ s → a = b.
Proof.
  revert b. induction a as [|c a IH]; intros [|c' b]; intros H.
  - done.
  - apply (f_equal String.length) in H.
    rewrite !string_length_append in H. simpl in H. lia.
  - apply (f_equal String.length) in H.
    rewrite !string_length_append in H. simpl in H. lia.
  - injection H as -> H. f_equal. by apply IH.
Qed.

Section Launcher.

Lemma SCENARIO_MAP_lookup scenario scenario_name :
  SCENARIO_MAP !! scenario = Some scenario_name →
  (scenario, scenario_name) ∈ [ (0, "ssp245"); (75, "ssp126"); (76, "ssp585") ].
Proof. apply elem_of_list_to_map_2. Qed.

Lemma MEASURE_MAP_save_lookup_elem measure measure_name :
  MEASURE_MAP_save !! measure = Some measure_name →
  (measure, measure_name) ∈
    [ ("death", "mortality"); ("incidence", "incidence"); ("yll", "yll"); ("yld", "yld") ].
Proof. apply elem_of_list_to_map_2. Qed.

(** Two combinations of known causes that write the same file are the
    same combination. *)
Lemma output_path_inj c1 s1 m1 d1 c2 s2 m2 d2 p :
  c1 ∈ CAUSES → c2 ∈ CAUSES →
  output_path c1 s1 m1 d1 = Some p →
  output_path c2 s2 m2 d2 = Some p →
  (c1, s1, m1, d1) = (c2, s2, m2, d2).
Proof.
  unfold output_path, CAUSES. intros Hc1 Hc2.
  destruct (SCENARIO_MAP !! s1) as [sn1|] eqn:Hs1; [|done].
  destruct (MEASURE_MAP_save !! m1) as [mn1|] eqn:Hm1; [|done].
  destruct (SCENARIO_MAP !! s2) as [sn2|] eqn:Hs2; [|done].
  destruct (MEASURE_MAP_save !! m2) as [mn2|] eqn:Hm2; [|done].
  cbn [mbind option_bind]. intros [= <-] [= E].
  apply SCENARIO_MAP_lookup in Hs1. apply SCENARIO_MAP_lookup in Hs2.
  apply MEASURE_MAP_save_lookup_elem in Hm1. apply MEASURE_MAP_save_lookup_elem in Hm2.
  unfold path_join, deliverable_root, raked_dirname in E.
  rewrite !elem_of_cons, elem_of_nil in Hc1, Hc2.
  rewrite !elem_of_cons, elem_of_nil in Hs1, Hs2.
  rewrite !elem_of_cons, elem_of_nil in Hm1, Hm2.
  destruct Hc1 as [->|[->|[]]], Hc2 as [->|[->|[]]];
    repeat case_decide; try done;
    cbv [String.append] in E; fold String.append in E; repeat (apply string_cons_eq in E as [Hhd E];
            first [ discriminate Hhd | clear Hhd ]).
  all: destruct Hm1 as [[= -> ->]|[[= -> ->]|[[= -> ->]|[[= -> ->]|[]]]]],
         Hm2 as [[= -> ->]|[[= -> ->]|[[= -> ->]|[[= -> ->]|[]]]]];
    cbv [String.append] in E; fold String.append in E; repeat (apply string_cons_eq in E as [Hhd E];
            first [ discriminate Hhd | clear Hhd ]).
  all: destruct Hs1 as [[= -> ->]|[[= -> ->]|[[= -> ->]|[]]]],
         Hs2 as [[= -> ->]|[[= -> ->]|[[= -> ->]|[]]]];
    cbv [String.append] in E; fold String.append in E; repeat (apply string_cons_eq in E as [Hhd E];
            first [ discriminate Hhd | clear Hhd ]).
  all: apply string_append_inv_tail, (inj pretty) in E; by subst.
Qed.

Lemma forecast_path_is_Some cause scenario measure :
  is_Some (forecast_path cause scenario measure) ↔
  cause ∈ CAUSES ∧ scenario ∈ SCENARIOS ∧ measure ∈ MEASURES.
Proof.
  unfold forecast_path, CAUSES, SCENARIOS, MEASURES. split.
  - destruct (scenario_and_measure_map !! (scenario, measure)) as [name|] eqn:Hname;
      [|by intros [? ?]].
    destruct (CAUSE_MAP !! cause) as [file|] eqn:Hfile; [|by intros [? ?]].
    intros _.
    apply elem_of_list_to_map_2 in Hname. apply elem_of_list_to_map_2 in Hfile.
    rewrite !elem_of_cons, elem_of_nil in Hname.
    rewrite !elem_of_cons, elem_of_nil in Hfile.
    split.
    + destruct Hfile as [[= -> ->]|[[= -> ->]|[]]];
        apply (bool_decide_unpack _); by vm_compute.
    + repeat (destruct Hname as [[= -> -> ->]|Hname];
                [split; apply (bool_decide_unpack _); by vm_compute|]).
      done.
  - rewrite !elem_of_cons, !elem_of_nil.
    intros ([->|[->|[]]] & [->|[->|[->|[]]]] & [->|[->|[->|[->|[]]]]]);
      by eexists.
Qed.

Lemma NoDup_bind_tag {A B} (tag : B → A) (f : A → list B) (l : list A) :
  (∀ x y, y ∈ f x → tag y = x) →
  (∀ x, x ∈ l → NoDup (f x)) → NoDup l → NoDup (l ≫= f).
Proof.
  intros Htag ? ?. apply NoDup_bind; [|done..].
  intros x1 x2 y _ _ H1 H2. by rewrite <-(Htag x1 y H1), <-(Htag x2 y H2).
Qed.

Lemma NoDup_tasks : NoDup tasks.
Proof.
  unfold tasks.
  apply (NoDup_bind_tag (λ t, t.1.1.1)).
  { intros c t (s & (m & (d & ->%list_elem_of_singleton & _)%list_elem_of_bind
                       & _)%list_elem_of_bind & _)%list_elem_of_bind. done. }
  2: { apply (bool_decide_unpack _). by vm_compute. }
  intros c _. apply (NoDup_bind_tag (λ t, t.1.1.2)).
  { intros s t (m & (d & ->%list_elem_of_singleton & _)%list_elem_of_bind
                  & _)%list_elem_of_bind. done. }
  2: { apply (bool_decide_unpack _). by vm_compute. }
  intros s _. apply (NoDup_bind_tag (λ t, t.1.2)).
  { intros m t (d & ->%list_elem_of_singleton & _)%list_elem_of_bind. done. }
  2: { apply (bool_decide_unpack _). by vm_compute. }
  intros m _. apply (NoDup_bind_tag (λ t, t.2)).
  { by intros d t ->%list_elem_of_singleton. }
  - intros d _. apply NoDup_singleton.
  - apply NoDup_seqZ.
Qed.

Lemma NoDup_omap_inj {A B} (f : A → option B) (l : list A) :
  (∀ x y b, x ∈ l → y ∈ l → f x = Some b → f y = Some b → x = y) →
  NoDup l → NoDup (omap f l).
Proof.
  intros Hinj Hnd. induction Hnd as [|x l Hx Hnd IH]; csimpl; [constructor|].
  assert (NoDup (omap f l)) as IH'.
  { apply IH. intros y z b Hy Hz. apply Hinj; by apply list_elem_of_further. }
  destruct (f x) as [b|] eqn:Hfx; [|done].
  constructor; [|done].
  intros (y & Hy & Hfy)%list_elem_of_omap.
  assert (x = y) as ->; [|done].
  apply (Hinj x y b); [apply list_elem_of_here|by apply list_elem_of_further|done..].
Qed.

(** X19.  The launcher's four lists and the child's tables agree: a
    combination is a task exactly when [get_forcasted_ds] knows its
    (scenario, measure) pair and its cause, and its draw is one of 0 to
    99. *)
Theorem tasks_are_the_accepted_combinations cause scenario measure draw :
  (cause, scenario, measure, draw) ∈ tasks ↔
  is_Some (forecast_path cause scenario measure) ∧ 0 ≤ draw < 100.
Proof.
  rewrite elem_of_tasks, forecast_path_is_Some. unfold DRAWS.
  rewrite elem_of_seqZ. intuition lia.
Qed.

(** X20.  No task is submitted twice, every task has an output path,
    and no two tasks write the same file. *)
Theorem tasks_write_distinct_files :
  NoDup tasks ∧
  NoDup (omap (λ t, output_path t.1.1.1 t.1.1.2 t.1.2 t.2) tasks) ∧
  length (omap (λ t, output_path t.1.1.1 t.1.1.2 t.1.2 t.2) tasks) = 2400%nat.
Proof.
  split; [apply NoDup_tasks|]. split.
  - apply NoDup_omap_inj; [|apply NoDup_tasks].
    intros [[[c1 s1] m1] d1] [[[c2 s2] m2] d2] p
      (? & _)%elem_of_tasks (? & _)%elem_of_tasks. by apply output_path_inj.
  - by vm_compute.
Qed.

End Launcher.

(** ** The example of the design document, through the theorems *)

Lemma ex_admin2_NoDup : NoDup (ids (child_row <$> ex_admin2)).
Proof. apply (bool_decide_unpack _). by vm_compute. Defined.


Lemma f64_admin2_NoDup : NoDup (ids (child_row <$> f64_admin2)).
Proof. apply (bool_decide_unpack _). by vm_compute. Defined.



(** C3 on the examples with the parent forecast at 0: child 11 keeps
    its 30 in exact arithmetic and its 1 in binary64. *)
Lemma identity_on_degenerate_groups_witness :
  (NoDup (ids (child_row <$> ex_admin2)) ∧
   ∃ merged v,
     rake ex_admin2 ex_admin1_zero = inr merged ∧
     cell merged 11 = Some v ∧ v tt = of_Z 30) ∧
  (NoDup (ids (child_row <$> f64_admin2)) ∧
   ∃ merged v,
     rake f64_admin2 f64_admin1_zero = inr merged ∧
     cell merged 11 = Some v ∧ v tt = 1%float).
Proof.
  split.
  - split; [exact ex_admin2_NoDup|].
    destruct (@identity_on_degenerate_groups exact exact_laws unit
                ex_admin2 ex_admin1_zero ex_admin2_NoDup
                (Child (Row 11 (constant 30)) 1) (Row 1 (constant 0)) tt)
      as (factor & merged & _ & Hrake & _ & v & Hv & Hvd).
    + vm_compute. apply list_elem_of_here.
    + vm_compute. apply list_elem_of_here.
    + reflexivity.
    + right. reflexivity.
    + by exists merged, v.
  - split; [exact f64_admin2_NoDup|].
    destruct (@identity_on_degenerate_groups float64 float64_laws unit
                f64_admin2 f64_admin1_zero f64_admin2_NoDup
                (Child (Row 11 (cell64 1)) 1) (Row 1 (cell64 0)) tt)
      as (factor & merged & _ & Hrake & _ & v & Hv & Hvd).
    + by apply list_elem_of_here.
    + by apply list_elem_of_here.
    + reflexivity.
    + right. reflexivity.
    + by exists merged, v.
Defined.

(** Steps 5 to 10 on the example: the labels 11, 12 and 13 come out, and
    the orphan 13 leaves them with its 5. *)
Example ex_rake_labels :
  ∃ merged,
    rake ex_admin2 ex_admin1 = inr merged ∧
    ids merged = [11; 12; 13] ∧ cell merged 13 = Some (constant 5).
Proof. eexists. split; [vm_compute; reflexivity|]. split; vm_compute; reflexivity. Qed.

(** On a fine table of orphans alone the same steps raise, and neither
    its label nor its row reaches an output. *)
Example ex_rake_orphans :
  rake ex_orphans ex_admin1 = inl (ValueError "parent_id must not be empty").
Proof. reflexivity. Qed.

(** C5 on a table that holds two of the retired labels: they are gone
    after the loop, and in exact arithmetic the map read backwards leaves
    the same cells under 44858. *)
Lemma impute_location_ids_reconciles_witness :
  NoDup (ids ex_prediction) ∧
  (60908 ∉ ids (impute_location_ids ex_prediction)) ∧
  same_cells (cell (impute_with (rev IMPUTE_MAP) ex_prediction) 44858)
             (cell (impute_location_ids ex_prediction) 44858).
Proof.
  assert (NoDup (ids ex_prediction)) as Hnd
    by (apply (bool_decide_unpack _); vm_compute; exact I).
  split; [exact Hnd|].
  destruct (impute_location_ids_reconciles ex_prediction Hnd)
    as (_ & Hgone & _ & _ & Horder).
  split.
  - apply (Hgone 60908 44858). left.
  - apply (Horder exact_sums_order_free). apply Permutation_rev.
Defined.

(** C8 on the example world: scenario 1 is in no row of the table. *)
Lemma configuration_errors_fail_fast_witness :
  scenario_and_measure_map !! (1, "death") = None ∧
  main_raking_function ex_off_axis "malaria" 1 "death" 0 ex_world =
    ([], inl (ValueError "Invalid scenario ID and measure combination.")).
Proof.
  split; [reflexivity|].
  destruct (configuration_errors_fail_fast ex_off_axis ex_world "malaria" 1 "death" 0)
    as (e & _ & Hmain & -> & _); [by left|].
  exact Hmain.
Defined.

(** C10 on the example world: draw 1 of the forecast is the table at 100. *)
Lemma forecast_restricted_to_requested_draw_witness :
  ∃ t, get_forcasted_ds "malaria" 0 "death" 1 ex_world = (t, inr [(1, ex_admin1)]).
Proof.
  destruct (forecast_restricted_to_requested_draw ex_off_axis ex_world "malaria" 0 "death" 1
              "20250709_first_sub_rcp45_climate_ref_100d_hiv_shocks_covid_all_s8_num"
              "malaria.nc")
    as (t & ds & Hget & -> & _); [reflexivity|reflexivity|reflexivity|].
  exists t. exact Hget.
Defined.

(** ** The examples, through the further theorems *)

Lemma ex_prediction_NoDup : NoDup (ids ex_prediction).
Proof. apply (bool_decide_unpack _). by vm_compute. Defined.

Lemma ex_hierarchy_NoDup : NoDup (h_location_id <$> ex_hierarchy).
Proof. apply (bool_decide_unpack _). by vm_compute. Defined.

(** X3 on the example: 95069 was there, so 44858 is. *)
Lemma impute_location_ids_labels_witness :
  NoDup (ids ex_prediction) ∧ 44858 ∈ ids (impute_location_ids ex_prediction).
Proof.
  split; [exact ex_prediction_NoDup|].
  destruct (impute_location_ids_labels ex_prediction ex_prediction_NoDup) as [_ Hl].
  apply Hl. right. split; [reflexivity|]. exists 95069.
  split; apply (bool_decide_unpack _); by vm_compute.
Defined.

(** X6 on the example: label 5 comes out with parent 1. *)
Lemma attach_hierarchy_rows_parents_witness :
  NoDup (ids ex_prediction) ∧ NoDup (h_location_id <$> ex_hierarchy) ∧
  Child (Row 5 (constant 1)) 1 ∈ attach_hierarchy ex_prediction ex_hierarchy.
Proof.
  split; [exact ex_prediction_NoDup|]. split; [exact ex_hierarchy_NoDup|].
  destruct (attach_hierarchy_rows_parents ex_prediction ex_hierarchy
              ex_prediction_NoDup ex_hierarchy_NoDup) as [_ Hc].
  apply Hc. split.
  - apply list_elem_of_here.
  - exists (HRow 5 5 1). split; [|split; reflexivity].
    apply list_elem_of_further, list_elem_of_here.
Defined.

(** X8 on the example: the one coarse row is in the first part. *)
Lemma split_ds_admin1_partition_witness :
  NoDup (ids ex_admin1) ∧
  (split_ds_admin1 ex_admin2 ex_admin1).1 ++ (split_ds_admin1 ex_admin2 ex_admin1).2
    ≡ₚ ex_admin1.
Proof.
  assert (NoDup (ids ex_admin1)) as Hnd
    by (apply (bool_decide_unpack _); vm_compute; exact I).
  split; [exact Hnd|].
  exact (proj1 (split_ds_admin1_partition ex_admin2 ex_admin1 Hnd)).
Defined.

(** X9 on the example: against an empty forecast the group sum raises. *)
Lemma rake_no_common_parent_witness :
  rake ex_admin2 [] = inl (ValueError "parent_id must not be empty").
Proof.
  apply (proj1 (rake_no_common_parent ex_admin2 [])).
  intros c _. apply not_elem_of_nil.
Defined.

(** X11 on the example: 11 and 12 are multiplied by the same number. *)
Lemma siblings_share_factor_witness :
  NoDup (ids (child_row <$> ex_admin2)) ∧
  ∃ merged v1 v2 k,
    rake ex_admin2 ex_admin1 = inr merged ∧
    cell merged 11 = Some v1 ∧ cell merged 12 = Some v2 ∧
    v1 tt = fmul (of_Z 30) k ∧ v2 tt = fmul (of_Z 20) k.
Proof.
  split; [exact ex_admin2_NoDup|].
  destruct (siblings_share_factor ex_admin2 ex_admin1 ex_admin2_NoDup
              (Child (Row 11 (constant 30)) 1) (Child (Row 12 (constant 20)) 1) tt)
    as (factor & merged & v1 & v2 & k & Hfactor & Hrake & Hk & H1 & H2 & Hv1 & Hv2).
  - vm_compute. apply list_elem_of_here.
  - vm_compute. apply list_elem_of_further, list_elem_of_here.
  - reflexivity.
  - exists merged, v1, v2, k. split; [exact Hrake|]. split; [exact H1|].
    split; [exact H2|]. split; [exact Hv1|exact Hv2].
Defined.

(** X13 on the examples with the forecast of parent 1 missing: child 11
    comes out missing, in exact arithmetic and in binary64. *)
Lemma rake_missing_cells_witness :
  (NoDup (ids (child_row <$> ex_admin2)) ∧
   ∃ merged v,
     rake ex_admin2 ex_admin1_missing = inr merged ∧
     cell merged 11 = Some v ∧ v tt = NaN) ∧
  (NoDup (ids (child_row <$> f64_admin2)) ∧
   ∃ merged v,
     rake f64_admin2 f64_admin1_missing = inr merged ∧
     cell merged 11 = Some v ∧ v tt = PrimFloat.nan).
Proof.
  split.
  - split; [exact ex_admin2_NoDup|].
    destruct (@rake_missing_cells exact exact_laws unit
                ex_admin2 ex_admin1_missing ex_admin2_NoDup
                (Child (Row 11 (constant 30)) 1) (Row 1 (λ _, NaN)) tt)
      as (merged & v & Hrake & Hv & _ & Hnan).
    + vm_compute. apply list_elem_of_here.
    + vm_compute. apply list_elem_of_here.
    + reflexivity.
    + exists merged, v. split; [exact Hrake|]. split; [exact Hv|].
      apply Hnan; reflexivity.
  - split; [exact f64_admin2_NoDup|].
    destruct (@rake_missing_cells float64 float64_laws unit
                f64_admin2 f64_admin1_missing f64_admin2_NoDup
                (Child (Row 11 (cell64 1)) 1) (Row 1 (cell64 PrimFloat.nan)) tt)
      as (merged & v & Hrake & Hv & _ & Hnan).
    + by apply list_elem_of_here.
    + by apply list_elem_of_here.
    + reflexivity.
    + exists merged, v. split; [exact Hrake|]. split; [exact Hv|].
      apply Hnan; reflexivity.
Defined.

(** X15 on the example world, for draw 1. *)
Lemma main_raking_function_succeeds_witness :
  ∃ pf pd dir merged_ds,
    forecast_path "malaria" 0 "death" = Some pf ∧
    predicted_folder "malaria" 0 "death" = Some pd ∧
    output_dir "malaria" 0 "death" = Some dir ∧
    writable ex_world ∧
    main_raking_function ex_off_axis "malaria" 0 "death" 1 ex_world =
      (load_trace pf pd 1 ++ save_trace dir 1, inr merged_ds).
Proof.
  eexists _, _, _.
  edestruct (main_raking_function_succeeds ex_off_axis ex_world "malaria" 0 "death" 1)
    as (merged_ds & Hmain & _);
    [reflexivity|reflexivity|reflexivity|reflexivity|reflexivity|reflexivity|
     reflexivity|by intros ?|reflexivity| |].
  - exists (Child (Row 5 (constant 1)) 1). split.
    + vm_compute. apply list_elem_of_here.
    + apply (bool_decide_unpack _). by vm_compute.
  - exists merged_ds. split; [reflexivity|]. split; [reflexivity|].
    split; [reflexivity|]. split; [by intros ?|]. exact Hmain.
Defined.

(** X16 on the example world that refuses to write the output file,
    for draw 1: the run stops at [to_netcdf], after it made the two
    directories. *)
Lemma main_raking_function_failure_witness :
  ∃ t dir p,
    main_raking_function ex_off_axis "malaria" 0 "death" 1 ex_world_readonly =
      (t, inl (CallFailed (EvToNetcdf p))) ∧
    output_path "malaria" 0 "death" 1 = Some p ∧
    output_dir "malaria" 0 "death" = Some dir ∧
    EvMkdir dir ∈ t ∧
    fs_refuses ex_world_readonly (EvToNetcdf p) = true.
Proof.
  eexists _, _, _. split; [vm_compute; reflexivity|].
  split; [reflexivity|]. split; [reflexivity|]. split.
  - do 7 apply list_elem_of_further. apply list_elem_of_here.
  - refine (proj1 (proj1 (main_raking_function_failure ex_off_axis ex_world_readonly
                            "malaria" 0 "death" 1 _ (CallFailed (EvToNetcdf _)) _ _))).
    + intros pf _. by eexists.
    + vm_compute. reflexivity.
Defined.

(** The run on a file system where no fine row has its parent in the
    forecast: it raises after the five reads and writes nothing. *)
Example ex_run_orphans off_axis :
  ∃ pf pd,
    forecast_path "malaria" 0 "death" = Some pf ∧
    predicted_folder "malaria" 0 "death" = Some pd ∧
    main_raking_function off_axis "malaria" 0 "death" 0 ex_world_orphans =
      (load_trace pf pd 0, inl (ValueError "parent_id must not be empty")).
Proof.
  eexists _, _. split; [reflexivity|]. split; [reflexivity|].
  vm_compute. reflexivity.
Qed.

(** X17 on the example world, for draw 1. *)
Lemma saved_output_is_found_witness :
  ∃ p,
    output_path "malaria" 0 "death" 1 = Some p ∧
    check_if_path_draw_exists "malaria" 0 "death" 1 ex_world = ([EvExists p], inr true).
Proof.
  edestruct (saved_output_is_found ex_off_axis ex_world "malaria" 0 "death" 1)
    as (pf & pd & dir & p & _ & _ & _ & Hp & _ & _ & Hcheck);
    [vm_compute; reflexivity|].
  exists p. split; [exact Hp|]. exact (Hcheck ex_world).
Defined.
